(** * Host communication, view state and content ingestion of the log view

    A shallow embedding of

    - [src/log/output-react/src/treebuild/vscodeComm.ts]: the transport to
      the host ([sendRequestToClient], [sendEventToClient]), the inbound
      ['message'] listener, the sequence counter and the state store
      ([getState], [setState]);
    - the ingestion controller ([setContents], [appendContents],
      [updateLabel], [setupGlobals], ...), which drives the tree builder.

    The module-level variables of the two files are the fields of one
    record, [World]; every function of the source is a function on worlds.
    Calls into collaborators that live outside these files (the tree
    builder, [saveTreeState], the console, the [resolve] function of a
    promise) are appended to a call log in program order.

    Numbers that the source uses as sequence numbers are integers; they are
    modelled in [Z], where JavaScript's [+= 1] is exact below [2^53]. *)

From Stdlib Require Import ZArith Lia.
From stdpp Require Import base option gmap strings numbers list.

(** ** Values *)

(** A value of TypeScript type [any], as far as the protocol carries one. *)
Inductive Any :=
| any_string (s : string)
| any_empty                                           (* [{}] *)
| any_with (key : string) (value : Any) (rest : Any). (* [{key: value, ...rest}] *)

(** Addresses of state objects.  [getState] hands out the object it holds
    and writes defaults into that same object, so objects have identity. *)
Definition Ref := nat.
Definition Promise := nat.
Definition TreeBuilder := nat.

(** Modelled from the spec: [IFilterLevel] of [./protocols], which is not
    part of the sources at hand; the spec has it as "enum-like string". *)
Definition IFilterLevel := string.

(** Modelled from the spec: the tree state of a run, of [./protocols],
    "serialized tree state (opaque to this layer)". *)
Definition TreeState := string.

Module IState.
(** Modelled from the spec: [IState] of [./protocols], "a single object with
    fields filterLevel, runIdToTreeState, runIdLRU".  At run time any of
    the fields of an object handed back by the host may be [undefined]
    ([None]); the declared type has all three. *)
Record t := mk {
  filterLevel : option IFilterLevel;
  runIdToTreeState : option (gmap string TreeState);
  runIdLRU : option (list string)
}.

(** An object without any of the fields, [{}]. *)
Definition empty : t := mk None None None.

(** All fields that the declared type requires are there. *)
Definition complete (s : t) : Prop :=
  is_Some (filterLevel s) ∧ is_Some (runIdToTreeState s) ∧ is_Some (runIdLRU s).

Definition set_filterLevel (v : IFilterLevel) (s : t) : t :=
  mk (Some v) (runIdToTreeState s) (runIdLRU s).
Definition set_runIdToTreeState (v : gmap string TreeState) (s : t) : t :=
  mk (filterLevel s) (Some v) (runIdLRU s).
Definition set_runIdLRU (v : list string) (s : t) : t :=
  mk (filterLevel s) (runIdToTreeState s) (Some v).
End IState.

(** ** Messages (interfaces of vscodeComm.ts) *)

Module IRequestMessage.
(** [{type: 'request', seq, command}] and the command's own fields. *)
Record t := mk {
  seq : Z;
  command : string;
  fields : Any
}.
End IRequestMessage.

Module IResponseMessage.
Record t := mk {
  seq : Z;
  command : string;
  request_seq : Z;
  body : option Any
}.
End IResponseMessage.

Module IEventMessage.
Record t := mk {
  seq : Z;
  event : string;
  data : option Any
}.
End IEventMessage.

Module ISetContentsRequest.
Record t := mk {
  initialContents : string;
  runId : option string;
  allRunIdsToLabel : option (gmap string string)
}.
End ISetContentsRequest.

Module IAppendContentsRequest.
Record t := mk {
  appendContents : string;
  runId : string
}.
End IAppendContentsRequest.

Module IUpdateLabelRequest.
Record t := mk {
  runId : string;
  label : string
}.
End IUpdateLabelRequest.

(** What the view posts to the host. *)
Inductive Outbound :=
| post_request (m : IRequestMessage.t)
| post_event (m : IEventMessage.t).

(** A request of the host, by the interface it implements.  [in_other] is a
    request with any other command than the three that have an interface
    and a slot in [requestToHandler]. *)
Inductive InRequest :=
| in_setContents (m : ISetContentsRequest.t)
| in_appendContents (m : IAppendContentsRequest.t)
| in_updateLabel (m : IUpdateLabelRequest.t)
| in_other (m : IRequestMessage.t).

(** [event.data] of a ['message'] event, when it is truthy, by [msg.type].
    The fields have the types that the interfaces declare; names of events
    and commands are not names that every object inherits (such as
    [constructor]), so that a lookup in a table finds what the table
    itself holds. *)
Inductive Inbound :=
| msg_response (m : IResponseMessage.t)
| msg_event (m : IEventMessage.t)
| msg_request (m : InRequest)
| msg_untyped (type : string).

(** ** The host binding

    [interface IVSCode]: the API object that the embedding page hands to
    [setVSCodeAPI].  Its implementation belongs to the host; [H] is the
    host's own state. *)
Module IVSCode.
Class t (H : Type) := mk {
  postMessage : Outbound → H → H;
  getState : H → option Ref;
  setState : Ref → H → H
}.

(** The storage contract of the host: [getState()] gives back the object
    that was last handed to [setState], as the API object of a webview
    does. *)
Class Stores (H : Type) `{t H} :=
  getState_setState : ∀ (state : Ref) (h : H), getState (setState state h) = Some state.
End IVSCode.

(** The API object of a webview: an outbox and one state slot. *)
Module Webview.
Record t := mk {
  posted : list Outbound;
  state : option Ref
}.

Definition fresh : t := mk [] None.

#[global] Instance api : IVSCode.t t := {|
  IVSCode.postMessage message h := mk (posted h ++ [message]) (state h);
  IVSCode.getState h := state h;
  IVSCode.setState s h := mk (posted h) (Some s)
|}.
End Webview.

(** ** Options of the active run *)

(** What [opts.onClickReference] can hold. *)
Inductive Callback :=
| emit_onClickReference          (* the controller's own [onClickReference] *)
| foreign_callback (id : nat).   (* a function of some other module *)

Module IOpts.
(** Modelled from the spec: the options object of [./options] (reached
    through [getOpts()]) is not part of the sources at hand; its fields are
    "runId, initialContents, appendedContents, allRunIdsToLabel, showTime,
    showExpand, and an optional callback invoked when the user activates a
    cross-reference". *)
Record t := mk {
  runId : option string;
  initialContents : string;
  appendedContents : list string;
  allRunIdsToLabel : option (gmap string string);
  showTime : bool;
  showExpand : bool;
  onClickReference : option Callback
}.

Definition set_runId v (o : t) :=
  mk v (initialContents o) (appendedContents o) (allRunIdsToLabel o)
     (showTime o) (showExpand o) (onClickReference o).
Definition set_initialContents v (o : t) :=
  mk (runId o) v (appendedContents o) (allRunIdsToLabel o)
     (showTime o) (showExpand o) (onClickReference o).
Definition set_appendedContents v (o : t) :=
  mk (runId o) (initialContents o) v (allRunIdsToLabel o)
     (showTime o) (showExpand o) (onClickReference o).
Definition set_allRunIdsToLabel v (o : t) :=
  mk (runId o) (initialContents o) (appendedContents o) v
     (showTime o) (showExpand o) (onClickReference o).
Definition set_showTime v (o : t) :=
  mk (runId o) (initialContents o) (appendedContents o) (allRunIdsToLabel o)
     v (showExpand o) (onClickReference o).
Definition set_showExpand v (o : t) :=
  mk (runId o) (initialContents o) (appendedContents o) (allRunIdsToLabel o)
     (showTime o) v (onClickReference o).
Definition set_onClickReference v (o : t) :=
  mk (runId o) (initialContents o) (appendedContents o) (allRunIdsToLabel o)
     (showTime o) (showExpand o) v.
End IOpts.

(** ** Calls into collaborators

    The tree builder ([./treeBuilder]), [saveTreeState] ([./persistTree]),
    the [resolve] function of a promise, a handler that another module put
    into [eventToHandler], and the console.  A collaborator that reads the
    options records what it saw. *)
Inductive Call :=
| SaveTreeState (seen : IOpts.t)
| NewTreeBuilder (tb : TreeBuilder)
| ClearAndInitializeTree (tb : TreeBuilder)
| AddInitialContents (tb : TreeBuilder) (seen : IOpts.t)
| OnAppendedContents (tb : TreeBuilder) (seen : IOpts.t)
| ResolvePromise (p : Promise) (value : IResponseMessage.t)
| CallEventHandler (handler : nat) (msg : IEventMessage.t)
| ConsoleLog (text : string) (msg : Inbound).

(** [requestToHandler]: each slot is [undefined] or, once [setupGlobals] has
    run, the controller's function of that name. *)
Module RequestHandlers.
Record t := mk {
  setContents : bool;
  appendContents : bool;
  updateLabel : bool
}.
End RequestHandlers.

(** ** The world *)

Record World {H : Type} := mkWorld {
  (* vscodeComm.ts *)
  vscode : option H;
  msgIdToSeq : gmap Z Promise;       (* seq of a request ↦ [resolve] of its promise *)
  eventToHandler : gmap string (option nat);   (* a slot may hold [undefined] *)
  requestToHandler : RequestHandlers.t;
  _lastMessageId : Z;
  _globalState : Ref;
  (* the controller *)
  treeBuilder : option TreeBuilder;
  (* ./options *)
  opts : IOpts.t;
  (* the run-time system *)
  heap : gmap Ref IState.t;
  nextPromise : Promise;
  nextTreeBuilder : TreeBuilder;
  calls : list Call
}.
Arguments World : clear implicits.
Arguments mkWorld {H}.

Section Program.
Context {H : Type} `{!IVSCode.t H}.
Implicit Types (w : World H) (p : Promise) (r : Ref).

(** *** Field updates *)

Definition with_vscode (v : option H) w : World H :=
  mkWorld v (msgIdToSeq w) (eventToHandler w) (requestToHandler w) (_lastMessageId w)
    (_globalState w) (treeBuilder w) (opts w) (heap w) (nextPromise w)
    (nextTreeBuilder w) (calls w).
Definition with_msgIdToSeq (v : gmap Z Promise) w : World H :=
  mkWorld (vscode w) v (eventToHandler w) (requestToHandler w) (_lastMessageId w)
    (_globalState w) (treeBuilder w) (opts w) (heap w) (nextPromise w)
    (nextTreeBuilder w) (calls w).
Definition with_eventToHandler (v : gmap string (option nat)) w : World H :=
  mkWorld (vscode w) (msgIdToSeq w) v (requestToHandler w) (_lastMessageId w)
    (_globalState w) (treeBuilder w) (opts w) (heap w) (nextPromise w)
    (nextTreeBuilder w) (calls w).
Definition with_requestToHandler (v : RequestHandlers.t) w : World H :=
  mkWorld (vscode w) (msgIdToSeq w) (eventToHandler w) v (_lastMessageId w)
    (_globalState w) (treeBuilder w) (opts w) (heap w) (nextPromise w)
    (nextTreeBuilder w) (calls w).
Definition with_lastMessageId (v : Z) w : World H :=
  mkWorld (vscode w) (msgIdToSeq w) (eventToHandler w) (requestToHandler w) v
    (_globalState w) (treeBuilder w) (opts w) (heap w) (nextPromise w)
    (nextTreeBuilder w) (calls w).
Definition with_globalState (v : Ref) w : World H :=
  mkWorld (vscode w) (msgIdToSeq w) (eventToHandler w) (requestToHandler w)
    (_lastMessageId w) v (treeBuilder w) (opts w) (heap w) (nextPromise w)
    (nextTreeBuilder w) (calls w).
Definition with_treeBuilder (v : option TreeBuilder) w : World H :=
  mkWorld (vscode w) (msgIdToSeq w) (eventToHandler w) (requestToHandler w)
    (_lastMessageId w) (_globalState w) v (opts w) (heap w) (nextPromise w)
    (nextTreeBuilder w) (calls w).
Definition with_opts (v : IOpts.t) w : World H :=
  mkWorld (vscode w) (msgIdToSeq w) (eventToHandler w) (requestToHandler w)
    (_lastMessageId w) (_globalState w) (treeBuilder w) v (heap w) (nextPromise w)
    (nextTreeBuilder w) (calls w).
Definition with_heap (v : gmap Ref IState.t) w : World H :=
  mkWorld (vscode w) (msgIdToSeq w) (eventToHandler w) (requestToHandler w)
    (_lastMessageId w) (_globalState w) (treeBuilder w) (opts w) v (nextPromise w)
    (nextTreeBuilder w) (calls w).
Definition with_nextPromise (v : Promise) w : World H :=
  mkWorld (vscode w) (msgIdToSeq w) (eventToHandler w) (requestToHandler w)
    (_lastMessageId w) (_globalState w) (treeBuilder w) (opts w) (heap w) v
    (nextTreeBuilder w) (calls w).
Definition with_nextTreeBuilder (v : TreeBuilder) w : World H :=
  mkWorld (vscode w) (msgIdToSeq w) (eventToHandler w) (requestToHandler w)
    (_lastMessageId w) (_globalState w) (treeBuilder w) (opts w) (heap w)
    (nextPromise w) v (calls w).

(** A call into a collaborator: it is logged, in program order. *)
Definition call (c : Call) w : World H :=
  mkWorld (vscode w) (msgIdToSeq w) (eventToHandler w) (requestToHandler w)
    (_lastMessageId w) (_globalState w) (treeBuilder w) (opts w) (heap w)
    (nextPromise w) (nextTreeBuilder w) (calls w ++ [c]).

(** *** vscodeComm.ts *)

Definition setVSCodeAPI (api : H) w : World H := with_vscode (Some api) w.

Definition isInVSCode w : bool := bool_decide (is_Some (vscode w)).

Definition nextMessageSeq w : Z * World H :=
  let w := with_lastMessageId (_lastMessageId w + 1) w in
  (_lastMessageId w, w).

(** [new Promise(executor)]: the promise is allocated, then the executor
    runs at once with the promise's [resolve] function, which is the
    promise's number here. *)
Definition new_Promise (executor : Promise → World H → World H) w : Promise * World H :=
  let p := nextPromise w in
  (p, executor p (with_nextPromise (S p) w)).

Definition sendRequestToClient (message : IRequestMessage.t) w : Promise * World H :=
  match vscode w with
  | Some vscodeRef =>
      let '(promise, w) :=
        new_Promise (λ resolve w,
          with_msgIdToSeq (<[IRequestMessage.seq message := resolve]> (msgIdToSeq w)) w) w in
      (promise, with_vscode (Some (IVSCode.postMessage (post_request message) vscodeRef)) w)
  | None =>
      new_Promise (λ resolve w,
        let '(seq, w) := nextMessageSeq w in
        let response :=
          IResponseMessage.mk seq (IRequestMessage.command message)
            (IRequestMessage.seq message) None in
        call (ResolvePromise resolve response) w) w
  end.

Definition sendEventToClient (message : IEventMessage.t) w : World H :=
  match vscode w with
  | Some vscodeRef =>
      with_vscode (Some (IVSCode.postMessage (post_event message) vscodeRef)) w
  | None => w
  end.

(** Reading and writing the fields of the state object at [r].  An
    address without an object reads as [{}]. *)
Definition obj w r : IState.t := default IState.empty (heap w !! r).
Definition write r (f : IState.t → IState.t) w : World H :=
  with_heap (<[r := f (obj w r)]> (heap w)) w.

(** The JavaScript values that the guards of [getState] look at, with
    [!v] and [v === undefined]. *)
Inductive Value :=
| js_undefined
| js_boolean (b : bool)
| js_string (s : string)
| js_object.                 (* an object or an array *)

Definition truthy (v : Value) : bool :=
  match v with
  | js_undefined => false
  | js_boolean b => b
  | js_string s => negb (bool_decide (s = ""))
  | js_object => true
  end.

Definition js_not (v : Value) : Value := js_boolean (negb (truthy v)).

Definition is_undefined (v : Value) : bool :=
  match v with js_undefined => true | _ => false end.

Definition string_field (x : option string) : Value :=
  match x with Some s => js_string s | None => js_undefined end.

Definition object_field {A} (x : option A) : Value :=
  match x with Some _ => js_object | None => js_undefined end.

Definition getState w : Ref * World H :=
  match vscode w with
  | Some vscodeRef =>
      let ret :=
        match IVSCode.getState vscodeRef with
        | Some ret => ret
        | None => _globalState w     (* initial state *)
        end in
      let w :=
        if is_undefined (string_field (IState.filterLevel (obj w ret)))
        then write ret (IState.set_filterLevel "PASS") w
        else w in
      let w :=
        if is_undefined (object_field (IState.runIdToTreeState (obj w ret)))
        then write ret (IState.set_runIdToTreeState ∅) w
        else w in
      let w :=
        (* [!ret.runIdLRU === undefined], that is [(!ret.runIdLRU) === undefined] *)
        if is_undefined (js_not (object_field (IState.runIdLRU (obj w ret))))
        then write ret (IState.set_runIdLRU []) w
        else w in
      (ret, w)
  | None => (_globalState w, w)
  end.

Definition setState (state : Ref) w : World H :=
  match vscode w with
  | Some vscodeRef => with_vscode (Some (IVSCode.setState state vscodeRef)) w
  | None => with_globalState state w
  end.

(** *** The ingestion controller *)

(** [rebuildTreeAndStatusesFromOpts] is [async]: it runs up to its
    [await], that is through the call of [addInitialContents], before it
    hands control back to [setContents]. *)
Definition rebuildTreeAndStatusesFromOpts w : World H :=
  let tb := nextTreeBuilder w in
  let w := call (NewTreeBuilder tb) (with_nextTreeBuilder (S tb) w) in
  let w := with_treeBuilder (Some tb) w in
  let w := call (ClearAndInitializeTree tb) w in
  call (AddInitialContents tb (opts w)) w.

Definition onClickReference (message : Any) w : World H :=
  let '(seq, w) := nextMessageSeq w in
  let ev := IEventMessage.mk seq "onClickReference" None in
  let ev := IEventMessage.mk (IEventMessage.seq ev) (IEventMessage.event ev) (Some message) in
  sendEventToClient ev w.

(** Modelled from the spec: [saveTreeState] of [./persistTree] is not part
    of the sources at hand, and the spec leaves what it persists out of
    scope "beyond its call contract".  The call is logged with the options
    that it finds. *)
Definition saveTreeState w : World H := call (SaveTreeState (opts w)) w.

Definition setContents (msg : ISetContentsRequest.t) w : World H :=
  let w := saveTreeState w in
  let w := with_opts (IOpts.set_runId (ISetContentsRequest.runId msg) (opts w)) w in
  let w := with_opts (IOpts.set_initialContents (ISetContentsRequest.initialContents msg) (opts w)) w in
  let w :=
    if isInVSCode w
    then with_opts (IOpts.set_onClickReference (Some emit_onClickReference) (opts w)) w
    else w in
  let w := with_opts (IOpts.set_appendedContents [] (opts w)) w in
  let w := with_opts (IOpts.set_allRunIdsToLabel (ISetContentsRequest.allRunIdsToLabel msg) (opts w)) w in
  rebuildTreeAndStatusesFromOpts w.

Definition setShowTime (showTime : bool) w : World H :=
  with_opts (IOpts.set_showTime showTime (opts w)) w.

Definition setShowExpand (showExpand : bool) w : World H :=
  with_opts (IOpts.set_showExpand showExpand (opts w)) w.

Definition appendContents (msg : IAppendContentsRequest.t) w : World H :=
  if decide (IOpts.runId (opts w) = Some (IAppendContentsRequest.runId msg)) then
    let w :=
      with_opts (IOpts.set_appendedContents
                   (IOpts.appendedContents (opts w) ++ [IAppendContentsRequest.appendContents msg])
                   (opts w)) w in
    match treeBuilder w with
    | Some tb => call (OnAppendedContents tb (opts w)) w
    | None => w
    end
  else w.

Definition updateLabel (msg : IUpdateLabelRequest.t) w : World H := w.

Definition onChangedRun (selectedRun : Any) w : World H :=
  let '(seq, w) := nextMessageSeq w in
  let ev := IEventMessage.mk seq "onSetCurrentRunId" None in
  let ev :=
    IEventMessage.mk (IEventMessage.seq ev) (IEventMessage.event ev)
      (Some (any_with "runId" selectedRun any_empty)) in
  sendEventToClient ev w.

Definition setupGlobals w : World H :=
  let w := with_requestToHandler
             (RequestHandlers.mk true (RequestHandlers.appendContents (requestToHandler w))
                (RequestHandlers.updateLabel (requestToHandler w))) w in
  let w := with_requestToHandler
             (RequestHandlers.mk (RequestHandlers.setContents (requestToHandler w)) true
                (RequestHandlers.updateLabel (requestToHandler w))) w in
  with_requestToHandler
    (RequestHandlers.mk (RequestHandlers.setContents (requestToHandler w))
       (RequestHandlers.appendContents (requestToHandler w)) true) w.

(** *** The ['message'] listener of vscodeComm.ts *)

Definition unhandled_request (msg : InRequest) w : World H :=
  call (ConsoleLog "Unhandled request: " (msg_request msg)) w.

Definition on_message (data : option Inbound) w : World H :=
  match data with
  | None => w
  | Some msg =>
      match msg with
      | msg_response responseMsg =>
          match msgIdToSeq w !! IResponseMessage.request_seq responseMsg with
          | Some resolvePromise =>
              let w := with_msgIdToSeq
                         (delete (IResponseMessage.request_seq responseMsg) (msgIdToSeq w)) w in
              call (ResolvePromise resolvePromise responseMsg) w
          | None => w
          end
      | msg_event ev =>
          match eventToHandler w !! IEventMessage.event ev with
          | Some (Some handler) => call (CallEventHandler handler ev) w
          | _ => call (ConsoleLog "Unhandled event: " msg) w
          end
      | msg_request req =>
          match req with
          | in_setContents m =>
              if RequestHandlers.setContents (requestToHandler w)
              then setContents m w else unhandled_request req w
          | in_appendContents m =>
              if RequestHandlers.appendContents (requestToHandler w)
              then appendContents m w else unhandled_request req w
          | in_updateLabel m =>
              if RequestHandlers.updateLabel (requestToHandler w)
              then updateLabel m w else unhandled_request req w
          | in_other _ => unhandled_request req w
          end
      | msg_untyped _ => w
      end
  end.

(** *** Runs

    What the page and the host can make the two modules do, one call at
    a time (the program is single-threaded). *)
Inductive Op :=
| op_setVSCodeAPI (api : H)
| op_sendRequestToClient (message : IRequestMessage.t)
| op_sendEventToClient (message : IEventMessage.t)
| op_message (data : option Inbound)
| op_nextMessageSeq
| op_getState
| op_setState (state : Ref)
| op_setContents (msg : ISetContentsRequest.t)
| op_setShowTime (showTime : bool)
| op_setShowExpand (showExpand : bool)
| op_appendContents (msg : IAppendContentsRequest.t)
| op_updateLabel (msg : IUpdateLabelRequest.t)
| op_onClickReference (message : Any)
| op_onChangedRun (selectedRun : Any)
| op_setupGlobals
(* other modules write to what they share with these two *)
| op_write_opts (f : IOpts.t → IOpts.t)                    (* [getOpts().x = ...] *)
| op_write_state (r : Ref) (f : IState.t → IState.t)       (* a state object *)
| op_write_eventToHandler (event : string) (handler : option nat).

Definition step (o : Op) w : World H :=
  match o with
  | op_setVSCodeAPI api => setVSCodeAPI api w
  | op_sendRequestToClient message => snd (sendRequestToClient message w)
  | op_sendEventToClient message => sendEventToClient message w
  | op_message data => on_message data w
  | op_nextMessageSeq => snd (nextMessageSeq w)
  | op_getState => snd (getState w)
  | op_setState state => setState state w
  | op_setContents msg => setContents msg w
  | op_setShowTime b => setShowTime b w
  | op_setShowExpand b => setShowExpand b w
  | op_appendContents msg => appendContents msg w
  | op_updateLabel msg => updateLabel msg w
  | op_onClickReference message => onClickReference message w
  | op_onChangedRun selectedRun => onChangedRun selectedRun w
  | op_setupGlobals => setupGlobals w
  | op_write_opts f => with_opts (f (opts w)) w
  | op_write_state r f => write r f w
  | op_write_eventToHandler event handler =>
      with_eventToHandler (<[event := handler]> (eventToHandler w)) w
  end.

Definition run (ops : list Op) w : World H := foldl (λ w o, step o w) w ops.

(** The world when both modules have been loaded: no host yet, the
    initial [_globalState] object at address [0], the options as
    [./options] creates them. *)
Definition initial (o : IOpts.t) : World H :=
  mkWorld None ∅ {[ "output" := None ]} (RequestHandlers.mk false false false) 0 0%nat None o
    {[ 0%nat := IState.mk (Some "PASS") (Some ∅) (Some []) ]} 0%nat 0%nat [].

(** The worlds that a run from the initial world can reach. *)
Definition reachable w : Prop := ∃ (o : IOpts.t) (ops : list Op), w = run ops (initial o).

(** *** Observations on the call log *)

(** The values with which the [resolve] function of [p] was called. *)
Definition resolved_with p (cs : list Call) : list IResponseMessage.t :=
  omap (λ c, match c with
             | ResolvePromise q v => if decide (q = p) then Some v else None
             | _ => None
             end) cs.
Definition resolutions p w : list IResponseMessage.t := resolved_with p (calls w).

(** The calls that the bookkeeping below is about: resolutions of
    promises and constructions of tree builders. *)
Fixpoint ledger (cs : list Call) : list Call :=
  match cs with
  | [] => []
  | ResolvePromise p v :: cs => ResolvePromise p v :: ledger cs
  | NewTreeBuilder tb :: cs => NewTreeBuilder tb :: ledger cs
  | _ :: cs => ledger cs
  end.

(** [w'] has the registry, the allocators and the ledger of [w]. *)
Definition kept w w' : Prop :=
  msgIdToSeq w' = msgIdToSeq w ∧ nextPromise w' = nextPromise w ∧
  nextTreeBuilder w' = nextTreeBuilder w ∧ ledger (calls w') = ledger (calls w).

Definition is_OnAppendedContents (c : Call) : bool :=
  match c with OnAppendedContents _ _ => true | _ => false end.

Definition is_SaveTreeState (c : Call) : bool :=
  match c with SaveTreeState _ => true | _ => false end.

Definition created (tb : TreeBuilder) w : Prop := NewTreeBuilder tb ∈ ledger (calls w).

(** The options after [setContents msg] owe nothing to the options
    before it. *)
Definition replaced_wholesale (msg : ISetContentsRequest.t) : Prop :=
  ∀ w (before1 before2 : IOpts.t),
    opts (setContents msg (with_opts before1 w)) = opts (setContents msg (with_opts before2 w)).

(** [n] calls of [nextMessageSeq] in a row. *)
Definition nextMessageSeq_times (n : nat) w : World H :=
  Nat.iter n (λ w, (nextMessageSeq w).2) w.

(** The calls made on the way from [w] to [w']. *)
Definition new_calls w w' : list Call := drop (length (calls w)) (calls w').

Definition count_calls (which : Call → bool) (cs : list Call) : nat :=
  length (filter (λ c, which c = true) cs).

(** What [getState] makes of the object that it returns when there is a
    host. *)
Definition backfilled (s : IState.t) : IState.t :=
  IState.mk (Some (default "PASS" (IState.filterLevel s)))
            (Some (default ∅ (IState.runIdToTreeState s)))
            (IState.runIdLRU s).

(** Two state objects are deep-equal when they have the same fields with
    the same values. *)
Definition deepEqual w (a b : Ref) : Prop := obj w a = obj w b.

(** Invariant of the run-time bookkeeping: pending resolvers belong to
    distinct promises that were allocated and not resolved so far, and
    tree builders in use were allocated. *)
Record wf w : Prop := {
  wf_pending : ∀ k p, msgIdToSeq w !! k = Some p → p < nextPromise w ∧ resolutions p w = [];
  wf_distinct : ∀ k1 k2 p, msgIdToSeq w !! k1 = Some p → msgIdToSeq w !! k2 = Some p → k1 = k2;
  wf_resolved : ∀ p, nextPromise w ≤ p → resolutions p w = [];
  wf_once : ∀ p, length (resolutions p w) ≤ 1;
  wf_created : ∀ tb, created tb w → tb < nextTreeBuilder w
}.

End Program.

(** ** The LRU discipline of the state store

    The code that keeps [runIdLRU] and [runIdToTreeState] bounded
    ([./persistTree]) is not part of the sources at hand; of the store,
    they hold [getState], [setState] and the initial [_globalState].  The
    definitions of this module follow section 4.3 of the spec.  The most
    recently used identifier comes first in [runIdLRU]. *)
Module LRU.
Section WithCap.
Variable cap : nat.     (* "a configured cap" *)

Definition lru (s : IState.t) : list string := default [] (IState.runIdLRU s).
Definition trees (s : IState.t) : gmap string TreeState :=
  default ∅ (IState.runIdToTreeState s).

(** Modelled from the spec: the update of [runIdLRU] is missing.
    "Whenever a run identifier becomes active, move it to the
    most-recently-used position of runIdLRU; insert it if absent." *)
Definition touch (runId : string) (l : list string) : list string :=
  runId :: filter (λ x, x ≠ runId) l.

(** Modelled from the spec: the choice of the identifier to evict is
    missing.  "When the number of distinct run identifiers exceeds a
    configured cap, evict the least-recently-used identifier [...].
    Eviction must never remove the currently active run." *)
Definition victim (active : string) (l : list string) : option string :=
  if decide (cap < length l) then
    match list.last l with
    | Some v => if decide (v = active) then None else Some v
    | None => None
    end
  else None.

(** Modelled from the spec: what an activation makes of [runIdLRU], by the
    two rules above. *)
Definition bump (runId : string) (l : list string) : list string :=
  let l := touch runId l in
  match victim runId l with
  | Some v => filter (λ x, x ≠ v) l
  | None => l
  end.

(** Modelled from the spec: the activation of a run is missing.  The run
    moves to the front of [runIdLRU]; it gets an entry in
    [runIdToTreeState] if it has none ("every key present in
    runIdToTreeState must also appear exactly once in runIdLRU, and vice
    versa"); the identifier to evict leaves "both runIdLRU and
    runIdToTreeState". *)
Definition activate (runId : string) (ts : TreeState) (s : IState.t) : IState.t :=
  let l := touch runId (lru s) in
  let m := match trees s !! runId with
           | Some _ => trees s
           | None => <[runId := ts]> (trees s)
           end in
  match victim runId l with
  | Some v =>
      IState.mk (IState.filterLevel s) (Some (delete v m)) (Some (filter (λ x, x ≠ v) l))
  | None => IState.mk (IState.filterLevel s) (Some m) (Some l)
  end.

(** Activations in a row, the first of the list first. *)
Definition activate_all (runs : list (string * TreeState)) (s : IState.t) : IState.t :=
  foldl (λ s run, activate run.1 run.2 s) s runs.

(** The invariant of section 3 of the spec: every key of
    [runIdToTreeState] is in [runIdLRU] exactly once, and the other way
    round. *)
Definition consistent (s : IState.t) : Prop :=
  NoDup (lru s) ∧ ∀ k, k ∈ lru s ↔ is_Some (trees s !! k).
End WithCap.

(** The identifiers of a history of activations by recency, the most
    recent first; the head of [history] is the latest activation. *)
Fixpoint recency (history : list string) : list string :=
  match history with
  | [] => []
  | runId :: history => runId :: filter (λ x, x ≠ runId) (recency history)
  end.

(** The state with which the store starts ([_globalState]). *)
Definition start : IState.t := IState.mk (Some "PASS") (Some ∅) (Some []).
End LRU.

(** ** Further observations on runs *)

Section Observations.
Context {H : Type} `{!IVSCode.t H}.
Implicit Types (w : World H) (p : Promise).

(** The tree builder that a call goes to. *)
Definition target (c : Call) : option TreeBuilder :=
  match c with
  | NewTreeBuilder tb | ClearAndInitializeTree tb
  | AddInitialContents tb _ | OnAppendedContents tb _ => Some tb
  | _ => None
  end.

(** [tb] is the tree builder of [w], or one that [w] has yet to construct. *)
Definition current_or_later w (tb : TreeBuilder) : Prop :=
  treeBuilder w = Some tb ∨ nextTreeBuilder w ≤ tb.

(** A call that goes to a tree builder goes to the current one or to a
    later one. *)
Definition goes_to_current_or_later w (c : Call) : Prop :=
  ∀ tb, target c = Some tb → current_or_later w tb.

(** The steps that reach the registry entry of sequence number [k]: a
    response to it, and a request sent under it. *)
Definition concerns (k : Z) (o : Op (H := H)) : Prop :=
  match o with
  | op_message (Some (msg_response m)) => IResponseMessage.request_seq m = k
  | op_sendRequestToClient m => IRequestMessage.seq m = k
  | _ => False
  end.

(** A promise that was handed out, is unresolved, and whose [resolve]
    the registry does not hold. *)
Definition orphan p w : Prop :=
  p < nextPromise w ∧ resolutions p w = [] ∧ ∀ k, msgIdToSeq w !! k ≠ Some p.

(** [appendContents] for each message of a list, in order. *)
Definition appendAll (msgs : list IAppendContentsRequest.t) w : World H :=
  foldl (λ w msg, appendContents msg w) w msgs.

(** The chunks of the messages that are for [runId], in order. *)
Definition chunks_for (runId : option string) (msgs : list IAppendContentsRequest.t)
  : list string :=
  IAppendContentsRequest.appendContents
    <$> filter (λ msg, runId = Some (IAppendContentsRequest.runId msg)) msgs.


(** The event name and the data of the notification that a step raises. *)
Definition notification (o : Op (H := H)) : option (string * Any) :=
  match o with
  | op_onClickReference message => Some ("onClickReference", message)
  | op_onChangedRun selectedRun =>
      Some ("onSetCurrentRunId", any_with "runId" selectedRun any_empty)
  | _ => None
  end.

(** Event messages for notifications, numbered from [from] on. *)
Definition numbered (from : Z) (ns : list (string * Any)) : list IEventMessage.t :=
  imap (λ i n, IEventMessage.mk (from + Z.of_nat i) n.1 (Some n.2)) ns.

(** The host after it was handed the events, one after the other. *)
Definition post_all (events : list IEventMessage.t) (h : H) : H :=
  foldl (λ h ev, IVSCode.postMessage (post_event ev) h) h events.

End Observations.

(** ** Concrete scenarios *)

Module Scenario.
Definition W := World Webview.t.

Definition opts0 : IOpts.t := IOpts.mk None "" [] None false false None.

(** Standalone: the page was opened without a host. *)
Definition standalone : W := initial opts0.

(** Hosted: the page handed a webview API to [setVSCodeAPI]. *)
Definition hosted : W := run [op_setVSCodeAPI Webview.fresh] standalone.

Definition run_A : ISetContentsRequest.t := ISetContentsRequest.mk "a" (Some "A") None.
Definition run_B : ISetContentsRequest.t := ISetContentsRequest.mk "b" (Some "B") None.
Definition chunk_A : IAppendContentsRequest.t := IAppendContentsRequest.mk "more" "A".

(** Run ["A"] is active. *)
Definition active_A : W := run [op_setContents run_A] standalone.

(** Run ["B"] has superseded run ["A"]. *)
Definition active_B : W := run [op_setContents run_A; op_setContents run_B] standalone.

(** Run ["A"] is named by the options, but no [setContents] ran. *)
Definition named_A : W := run [op_write_opts (IOpts.set_runId (Some "A"))] standalone.

(** A request with sequence number 1 waits for its response. *)
Definition request1 : IRequestMessage.t :=
  IRequestMessage.mk 1
    "setContents"
    (any_with "initialContents" (any_string "x") (any_with "runId" (any_string "r1") any_empty)).
Definition pending : W := run [op_nextMessageSeq; op_sendRequestToClient request1] hosted.
Definition response1 : IResponseMessage.t := IResponseMessage.mk 1 "setContents" 1 None.
Definition duplicate1 : IResponseMessage.t := IResponseMessage.mk 2 "setContents" 1 None.

(** The host holds a state object, at address 1, that was stored before
    [runIdLRU] existed. *)
Definition legacy_state : IState.t := IState.mk (Some "PASS") (Some ∅) None.
Definition legacy : W :=
  run [op_write_state 1%nat (λ _, legacy_state);
       op_setVSCodeAPI (Webview.mk [] (Some 1%nat))] standalone.

(** A state object such as a caller of [setState] makes, at address 1. *)
Definition some_state : IState.t :=
  IState.mk (Some "FAIL") (Some {[ "A" := "tree of A" ]}) (Some ["A"]).
Definition with_some_state (w : W) : W := run [op_write_state 1%nat (λ _, some_state)] w.

(** The counter has given out 1, to [request1]; there is no host. *)
Definition counted : W := run [op_nextMessageSeq] standalone.

(** A store under a cap of two that holds runs ["A"] and ["B"]. *)
Definition two_runs : IState.t :=
  LRU.activate_all 2 [("A", "tree of A"); ("B", "tree of B")] LRU.start.
Definition three_runs : list (string * TreeState) :=
  [("A", "tree of A"); ("B", "tree of B"); ("C", "tree of C")].
(** Two requests wait for their responses; the second was sent under the
    sequence number of [request1] again, the third under its own. *)
Definition request1_again : IRequestMessage.t := IRequestMessage.mk 1 "appendContents" any_empty.
Definition request2 : IRequestMessage.t := IRequestMessage.mk 2 "updateLabel" any_empty.
Definition response2 : IResponseMessage.t := IResponseMessage.mk 9 "updateLabel" 2 None.
Definition two_pending : W := run [op_sendRequestToClient request2] pending.

(** Run ["A"] is active, and chunks for ["A"], ["B"], ["A"] arrive. *)
Definition chunks : list IAppendContentsRequest.t :=
  [IAppendContentsRequest.mk "one" "A"; IAppendContentsRequest.mk "stale" "B";
   IAppendContentsRequest.mk "two" "A"].

Definition chunk_B : IAppendContentsRequest.t := IAppendContentsRequest.mk "more" "B".

(** Steps that leave the pending [request1] alone. *)
Definition unrelated : list (Op (H := Webview.t)) :=
  [op_sendRequestToClient request2; op_message (Some (msg_response response2));
   op_setContents run_A; op_nextMessageSeq].

(** A click on a reference, then a change of the run. *)
Definition two_notifications : list (Op (H := Webview.t)) :=
  [op_onClickReference (any_string "x"); op_onChangedRun (any_string "A")].

(** [setContents] without a run id. *)
Definition run_unnamed : ISetContentsRequest.t := ISetContentsRequest.mk "u" None None.
End Scenario.

(** * Properties *)

(** The webview API object gives back the state that it was given. *)
#[global] Instance webview_stores : IVSCode.Stores Webview.t.
Proof. intros s h. reflexivity. Qed.

Section Properties.
Context {H : Type} `{!IVSCode.t H}.
Implicit Types (w : World H) (p : Promise) (r : Ref).

(** ** The sequence counter *)

Lemma nextMessageSeq_value w : (nextMessageSeq w).1 = (_lastMessageId w + 1)%Z.
Proof. reflexivity. Qed.

Lemma nextMessageSeq_counter w :
  _lastMessageId (nextMessageSeq w).2 = (_lastMessageId w + 1)%Z.
Proof. reflexivity. Qed.

Lemma sendEventToClient_counter m w :
  _lastMessageId (sendEventToClient m w) = _lastMessageId w.
Proof. unfold sendEventToClient. by destruct (vscode w). Qed.

Lemma getState_counter w : _lastMessageId (getState w).2 = _lastMessageId w.
Proof.
  unfold getState. destruct (vscode w) as [h|]; [|done]. simpl.
  repeat (case_match; simpl); done.
Qed.

Lemma step_counter o w : (_lastMessageId w ≤ _lastMessageId (step o w))%Z.
Proof.
  destruct o; simpl; try lia;
    unfold sendRequestToClient, on_message, setState, setContents, appendContents,
      unhandled_request, updateLabel, onClickReference, onChangedRun;
    rewrite ?getState_counter; simpl; rewrite ?sendEventToClient_counter; simpl;
    try lia;
    repeat (case_match; simpl; rewrite ?sendEventToClient_counter; simpl; try lia).
Qed.

Lemma run_counter ops w : (_lastMessageId w ≤ _lastMessageId (run ops w))%Z.
Proof.
  revert w. induction ops as [|o ops IH]; intros w; simpl; [lia|].
  etrans; [apply (step_counter o)|apply IH].
Qed.

Lemma nextMessageSeq_times_counter n w :
  _lastMessageId (nextMessageSeq_times n w) = (_lastMessageId w + Z.of_nat n)%Z.
Proof.
  unfold nextMessageSeq_times. induction n as [|n IH]; [simpl; lia|].
  rewrite Nat.iter_succ, nextMessageSeq_counter, IH. lia.
Qed.

(** C9.  The first call of [nextMessageSeq] returns 1, and every call
    returns an integer strictly greater than the call before it did,
    whatever the two modules did in between; called [n + 1] times in a
    row, it returns [n + 1]. *)
Theorem nextMessageSeq_strictly_increasing :
  (∀ o, (nextMessageSeq (initial o : World H)).1 = 1%Z) ∧
  (∀ w ops,
     ((nextMessageSeq w).1 < (nextMessageSeq (run ops (nextMessageSeq w).2)).1)%Z) ∧
  (∀ o n, (nextMessageSeq (nextMessageSeq_times n (initial o : World H))).1
          = (Z.of_nat n + 1)%Z).
Proof.
  split_and!.
  - done.
  - intros w ops. rewrite !nextMessageSeq_value.
    pose proof (run_counter ops (nextMessageSeq w).2) as Hle.
    rewrite nextMessageSeq_counter in Hle. lia.
  - intros o n. rewrite nextMessageSeq_value, nextMessageSeq_times_counter. simpl. lia.
Qed.

(** ** Bookkeeping of promises and tree builders *)

Lemma ledger_app (cs1 cs2 : list Call) : ledger (cs1 ++ cs2) = ledger cs1 ++ ledger cs2.
Proof.
  induction cs1 as [|c cs1 IH]; [done|].
  destruct c; simpl; rewrite ?IH; done.
Qed.

Lemma resolved_with_ledger p (cs : list Call) :
  resolved_with p (ledger cs) = resolved_with p cs.
Proof.
  induction cs as [|c cs IH]; [done|].
  destruct c; simpl; try done.
  fold (resolved_with p (ledger cs)). fold (resolved_with p cs). by rewrite IH.
Qed.

Lemma resolved_with_app p (cs1 cs2 : list Call) :
  resolved_with p (cs1 ++ cs2) = resolved_with p cs1 ++ resolved_with p cs2.
Proof. apply omap_app. Qed.

Lemma resolutions_call_resolve p q v w :
  resolutions p (call (ResolvePromise q v) w) =
    resolutions p w ++ (if decide (q = p) then [v] else []).
Proof.
  unfold resolutions. simpl. rewrite resolved_with_app. simpl.
  by destruct (decide (q = p)).
Qed.

Lemma kept_resolutions w w' p : kept w w' → resolutions p w' = resolutions p w.
Proof.
  intros (_ & _ & _ & Hl). unfold resolutions.
  by rewrite <-(resolved_with_ledger p (calls w')), Hl, resolved_with_ledger.
Qed.

Lemma kept_created w w' tb : kept w w' → created tb w' ↔ created tb w.
Proof. intros (_ & _ & _ & Hl). unfold created. by rewrite Hl. Qed.

Lemma kept_refl w : kept w w.
Proof. done. Qed.

Lemma kept_trans w1 w2 w3 : kept w1 w2 → kept w2 w3 → kept w1 w3.
Proof. unfold kept. intros (-> & -> & -> & ->) (-> & -> & -> & ->). done. Qed.

Lemma wf_kept w w' : kept w w' → wf w → wf w'.
Proof.
  intros Hk [Hpend Hdist Hres Honce Hcr].
  pose proof Hk as (Hm & Hp & Ht & _).
  split.
  - intros k p. rewrite Hm, Hp, (kept_resolutions w w') by done. apply Hpend.
  - intros k1 k2 p. rewrite Hm. apply Hdist.
  - intros p. rewrite Hp, (kept_resolutions w w') by done. apply Hres.
  - intros p. rewrite (kept_resolutions w w') by done. apply Honce.
  - intros tb. rewrite Ht, (kept_created w w') by done. apply Hcr.
Qed.

Ltac kept_tac :=
  unfold kept; simpl; rewrite ?ledger_app; simpl; rewrite ?app_nil_r; done.

Lemma sendEventToClient_kept m w : kept w (sendEventToClient m w).
Proof. unfold sendEventToClient. destruct (vscode w); kept_tac. Qed.

Lemma getState_kept w : kept w (getState w).2.
Proof.
  unfold getState. destruct (vscode w) as [h|]; [|kept_tac]. simpl.
  repeat (case_match; simpl); kept_tac.
Qed.

Lemma setState_kept state w : kept w (setState state w).
Proof. unfold setState. destruct (vscode w); kept_tac. Qed.

Lemma appendContents_kept msg w : kept w (appendContents msg w).
Proof. unfold appendContents. repeat (case_match; simpl); kept_tac. Qed.

Lemma onClickReference_kept message w : kept w (onClickReference message w).
Proof.
  unfold onClickReference. simpl.
  eapply kept_trans; [|apply sendEventToClient_kept]. kept_tac.
Qed.

Lemma onChangedRun_kept selectedRun w : kept w (onChangedRun selectedRun w).
Proof.
  unfold onChangedRun. simpl.
  eapply kept_trans; [|apply sendEventToClient_kept]. kept_tac.
Qed.

(** [setContents] constructs one tree builder. *)
Lemma setContents_bookkeeping msg w :
  msgIdToSeq (setContents msg w) = msgIdToSeq w ∧
  nextPromise (setContents msg w) = nextPromise w ∧
  nextTreeBuilder (setContents msg w) = S (nextTreeBuilder w) ∧
  ledger (calls (setContents msg w)) =
    ledger (calls w) ++ [NewTreeBuilder (nextTreeBuilder w)].
Proof.
  unfold setContents, saveTreeState. simpl.
  destruct (isInVSCode _); simpl; rewrite !ledger_app; simpl;
    rewrite ?app_nil_r; done.
Qed.

Lemma wf_setContents msg w : wf w → wf (setContents msg w).
Proof.
  intros [Hpend Hdist Hres Honce Hcr].
  destruct (setContents_bookkeeping msg w) as (Hm & Hp & Ht & Hl).
  assert (Hr : ∀ p, resolutions p (setContents msg w) = resolutions p w).
  { intros p. unfold resolutions.
    rewrite <-(resolved_with_ledger p (calls (setContents msg w))), Hl.
    rewrite resolved_with_app, resolved_with_ledger. simpl. by rewrite app_nil_r. }
  split.
  - intros k p. rewrite Hm, Hp, Hr. apply Hpend.
  - intros k1 k2 p. rewrite Hm. apply Hdist.
  - intros p. rewrite Hp, Hr. apply Hres.
  - intros p. rewrite Hr. apply Honce.
  - intros tb. unfold created. rewrite Ht, Hl, elem_of_app, list_elem_of_singleton.
    intros [Hold | [= ->]]; [apply Hcr in Hold|]; lia.
Qed.

Lemma wf_sendRequestToClient message w : wf w → wf (sendRequestToClient message w).2.
Proof.
  intros [Hpend Hdist Hres Honce Hcr].
  unfold sendRequestToClient. destruct (vscode w) as [h|]; simpl.
  - split; simpl.
    + intros k p. rewrite lookup_insert. case_decide as Hk.
      * intros [= <-]. split; [lia|]. by apply Hres.
      * intros Hp. destruct (Hpend _ _ Hp). split; [lia|done].
    + intros k1 k2 p. rewrite !lookup_insert.
      repeat case_decide; subst; try done.
      * intros [= <-] Hp. destruct (Hpend _ _ Hp). lia.
      * intros Hp [= <-]. destruct (Hpend _ _ Hp). lia.
      * apply Hdist.
    + intros p Hp. apply Hres. lia.
    + done.
    + done.
  - split; simpl.
    + intros k p Hp. destruct (Hpend _ _ Hp) as [Hlt Hnone]. split; [lia|].
      rewrite resolutions_call_resolve. rewrite decide_False by lia.
      by rewrite app_nil_r.
    + done.
    + intros p Hp. rewrite resolutions_call_resolve, decide_False by lia.
      rewrite app_nil_r. apply Hres. lia.
    + intros p. rewrite resolutions_call_resolve. case_decide as Hq.
      * subst p. unfold resolutions in *. simpl. rewrite (Hres (nextPromise w)) by lia. done.
      * rewrite app_nil_r. apply Honce.
    + intros tb. unfold created. simpl. rewrite ledger_app. simpl.
      rewrite elem_of_app. intros [Hold | Hnew]; [by apply Hcr|].
      apply list_elem_of_singleton in Hnew. done.
Qed.

Lemma wf_response m w : wf w → wf (on_message (Some (msg_response m)) w).
Proof.
  intros [Hpend Hdist Hres Honce Hcr]. simpl.
  destruct (msgIdToSeq w !! IResponseMessage.request_seq m) as [q|] eqn:Hq; [|done].
  destruct (Hpend _ _ Hq) as [Hlt Hnone].
  split; simpl.
  - intros k p. rewrite lookup_delete. case_decide as Hk; [done|].
    intros Hp. destruct (Hpend _ _ Hp) as [Hlt' Hnone']. split; [done|].
    rewrite resolutions_call_resolve. rewrite decide_False; [by rewrite app_nil_r|].
    intros ->. apply Hk. by eapply Hdist.
  - intros k1 k2 p. rewrite !lookup_delete. repeat case_decide; try done. apply Hdist.
  - intros p Hp. rewrite resolutions_call_resolve, decide_False by lia.
    rewrite app_nil_r. by apply Hres.
  - intros p. rewrite resolutions_call_resolve. case_decide as Hp.
    + subst p. unfold resolutions in *. simpl. by rewrite Hnone.
    + rewrite app_nil_r. apply Honce.
  - intros tb. unfold created. simpl. rewrite ledger_app. simpl.
    rewrite elem_of_app. intros [Hold | Hnew]; [by apply Hcr|].
    apply list_elem_of_singleton in Hnew. done.
Qed.

Lemma wf_on_message data w : wf w → wf (on_message data w).
Proof.
  intros Hwf. destruct data as [[m|m|req|ty]|]; try done.
  - by apply wf_response.
  - simpl. destruct (eventToHandler w !! _) as [[handler|]|];
    (eapply wf_kept; [|done]); kept_tac.
  - destruct req as [m|m|m|m]; simpl; unfold unhandled_request, updateLabel;
      repeat case_match; try done;
      try (by apply wf_setContents);
      (eapply wf_kept; [|done]); try apply appendContents_kept; kept_tac.
Qed.

Lemma wf_initial (o : IOpts.t) : wf (initial o : World H).
Proof.
  split; try done.
  - intros p. simpl. lia.
  - intros tb. unfold created. simpl. by intros ?%elem_of_nil.
Qed.

Lemma wf_step o w : wf w → wf (step o w).
Proof.
  intros Hwf. destruct o; simpl.
  - eapply wf_kept; [|done]. kept_tac.
  - by apply wf_sendRequestToClient.
  - eapply wf_kept; [apply sendEventToClient_kept|done].
  - by apply wf_on_message.
  - eapply wf_kept; [|done]. kept_tac.
  - eapply wf_kept; [apply getState_kept|done].
  - eapply wf_kept; [apply setState_kept|done].
  - by apply wf_setContents.
  - eapply wf_kept; [|done]. kept_tac.
  - eapply wf_kept; [|done]. kept_tac.
  - eapply wf_kept; [apply appendContents_kept|done].
  - done.
  - eapply wf_kept; [apply onClickReference_kept|done].
  - eapply wf_kept; [apply onChangedRun_kept|done].
  - eapply wf_kept; [|done]. kept_tac.
  - eapply wf_kept; [|done]. kept_tac.
  - eapply wf_kept; [|done]. kept_tac.
  - eapply wf_kept; [|done]. kept_tac.
Qed.

Lemma wf_run ops w : wf w → wf (run ops w).
Proof.
  revert w. induction ops as [|o ops IH]; intros w Hwf; simpl; [done|].
  apply IH. by apply wf_step.
Qed.

Lemma reachable_initial (o : IOpts.t) : reachable (initial o : World H).
Proof. by exists o, []. Qed.

Lemma reachable_run ops w : reachable w → reachable (run ops w).
Proof.
  intros (o & ops0 & ->). exists o, (ops0 ++ ops).
  unfold run. by rewrite foldl_app.
Qed.

Lemma reachable_wf w : reachable w → wf w.
Proof. intros (o & ops & ->). apply wf_run, wf_initial. Qed.

(** ** The ingestion controller *)

(** C3.  An [appendContents] message for a run other than the active one
    changes nothing: the options (with [appendedContents]), the call log
    (no [onAppendedContents], no event to the host) and the rest of the
    world are as before, and the call returns. *)
Theorem appendContents_stale_noop w (msg : IAppendContentsRequest.t) :
  IOpts.runId (opts w) ≠ Some (IAppendContentsRequest.runId msg) →
  appendContents msg w = w.
Proof. intros Hne. unfold appendContents. by rewrite decide_False. Qed.

(** C10.  With the active run's id but no tree builder yet, the chunk is
    appended to [appendedContents], no call is made (the log is as
    before), and nothing else changes. *)
Theorem appendContents_without_treeBuilder w (msg : IAppendContentsRequest.t) :
  treeBuilder w = None →
  IOpts.runId (opts w) = Some (IAppendContentsRequest.runId msg) →
  let w' := appendContents msg w in
  IOpts.appendedContents (opts w') =
    IOpts.appendedContents (opts w) ++ [IAppendContentsRequest.appendContents msg] ∧
  calls w' = calls w ∧
  treeBuilder w' = None ∧
  w' = with_opts (IOpts.set_appendedContents
                    (IOpts.appendedContents (opts w) ++ [IAppendContentsRequest.appendContents msg])
                    (opts w)) w.
Proof.
  intros Htb Hid. unfold appendContents. rewrite decide_True by done.
  simpl. rewrite Htb. done.
Qed.

(** C4, as amended.  [setContents msg] sets [runId], [initialContents]
    and [allRunIdsToLabel] from [msg] and empties [appendedContents];
    inside a host it sets the cross-reference callback to the
    controller's [onClickReference], outside it leaves the callback as
    it was; [showTime] and [showExpand] stay as they were. *)
Theorem setContents_opts w (msg : ISetContentsRequest.t) :
  opts (setContents msg w) =
    IOpts.mk (ISetContentsRequest.runId msg) (ISetContentsRequest.initialContents msg) []
      (ISetContentsRequest.allRunIdsToLabel msg)
      (IOpts.showTime (opts w)) (IOpts.showExpand (opts w))
      (if isInVSCode w then Some emit_onClickReference else IOpts.onClickReference (opts w)).
Proof.
  unfold setContents, saveTreeState, isInVSCode. simpl.
  destruct (bool_decide (is_Some (vscode w))); reflexivity.
Qed.

(** C2.  [setContents] makes four calls, in this order: [saveTreeState]
    once, which finds the options as they were before the call; then,
    with the options overwritten, [new TreeBuilder()], its
    [clearAndInitializeTree] and its [addInitialContents].  The tree
    builder is one that did not exist before, and it becomes the
    current one.  [onAppendedContents] is not among the calls. *)
Theorem setContents_saves_then_rebuilds w (msg : ISetContentsRequest.t) :
  let w' := setContents msg w in
  let tb := nextTreeBuilder w in
  calls w' = calls w ++ new_calls w w' ∧
  new_calls w w' =
    [SaveTreeState (opts w); NewTreeBuilder tb; ClearAndInitializeTree tb;
     AddInitialContents tb (opts w')] ∧
  count_calls is_SaveTreeState (new_calls w w') = 1 ∧
  count_calls is_OnAppendedContents (new_calls w w') = 0 ∧
  treeBuilder w' = Some tb ∧
  (reachable w → ¬ created tb w).
Proof.
  intros w' tb.
  assert (Hcalls : calls w' = calls w ++
    [SaveTreeState (opts w); NewTreeBuilder tb; ClearAndInitializeTree tb;
     AddInitialContents tb (opts w')]).
  { subst w' tb. unfold setContents, saveTreeState. simpl.
    destruct (isInVSCode _); simpl; rewrite <-!app_assoc; reflexivity. }
  assert (Hnew : new_calls w w' =
    [SaveTreeState (opts w); NewTreeBuilder tb; ClearAndInitializeTree tb;
     AddInitialContents tb (opts w')]).
  { unfold new_calls. rewrite Hcalls at 1. by rewrite drop_app_length. }
  split_and!.
  - by rewrite Hnew.
  - done.
  - by rewrite Hnew.
  - by rewrite Hnew.
  - subst w' tb. unfold setContents, saveTreeState. simpl.
    by destruct (isInVSCode _).
  - intros Hwf%reachable_wf Hcr. apply (wf_created _ Hwf) in Hcr. subst tb. lia.
Qed.

(** ** Requests without a host *)

Lemma step_calls_prefix o w : calls w `prefix_of` calls (step o w).
Proof.
  assert (Hev : ∀ m w, calls (sendEventToClient m w) = calls w).
  { intros m w0. unfold sendEventToClient. by destruct (vscode w0). }
  assert (Hget : ∀ w, calls (getState w).2 = calls w).
  { intros w0. unfold getState. destruct (vscode w0); [|done]. simpl.
    repeat (case_match; simpl); done. }
  destruct o; simpl;
    unfold sendRequestToClient, on_message, setState, setContents, saveTreeState,
      appendContents, unhandled_request, updateLabel, onClickReference, onChangedRun;
    rewrite ?Hget, ?Hev; simpl; rewrite ?Hev; simpl;
    repeat (case_match; simpl); rewrite <-?app_assoc;
    try done; try (by apply prefix_app_r).
Qed.

Lemma resolutions_step_prefix o w p :
  resolutions p w `prefix_of` resolutions p (step o w).
Proof.
  destruct (step_calls_prefix o w) as [cs Hcs]. unfold resolutions.
  rewrite Hcs, resolved_with_app. by apply prefix_app_r.
Qed.

Lemma resolved_once_stays o w p v :
  wf w → resolutions p w = [v] → resolutions p (step o w) = [v].
Proof.
  intros Hwf Hv.
  destruct (resolutions_step_prefix o w p) as [more Hmore].
  pose proof (wf_once _ (wf_step o w Hwf) p) as Hlen.
  rewrite Hmore, Hv in Hlen |- *. destruct more; [done|]. simpl in Hlen. lia.
Qed.

Lemma resolved_once_forever ops w p v :
  wf w → resolutions p w = [v] → resolutions p (run ops w) = [v].
Proof.
  revert w. induction ops as [|o ops IH]; intros w Hwf Hv; simpl; [done|].
  apply IH; [by apply wf_step | by apply resolved_once_stays].
Qed.

(** C1.  Without a host, [sendRequestToClient message] returns a promise
    that it has resolved, once, with the response
    [{type: 'response', seq, command: message.command,
    request_seq: message.seq, body: undefined}], where [seq] is what
    [nextMessageSeq()] returned for it, past every number allocated
    before; nothing is left pending, and whatever the modules do
    afterwards, the promise's [resolve] is not called again.  When the
    request took its [seq], 1, from the fresh counter, the response has
    [seq] 2. *)
Theorem sendRequestToClient_standalone :
  (∀ w (message : IRequestMessage.t),
     reachable w → vscode w = None →
     let promise := (sendRequestToClient message w).1 in
     let w' := (sendRequestToClient message w).2 in
     let response :=
       IResponseMessage.mk (nextMessageSeq w).1 (IRequestMessage.command message)
         (IRequestMessage.seq message) None in
     resolutions promise w = [] ∧
     resolutions promise w' = [response] ∧
     (∀ ops, resolutions promise (run ops w') = [response]) ∧
     (_lastMessageId w < IResponseMessage.seq response)%Z ∧
     _lastMessageId w' = IResponseMessage.seq response ∧
     msgIdToSeq w' = msgIdToSeq w) ∧
  (∀ (o : IOpts.t) (fields : Any),
     let w : World H := initial o in
     let seq := (nextMessageSeq w).1 in
     let message := IRequestMessage.mk seq "setContents" fields in
     let sent := sendRequestToClient message (nextMessageSeq w).2 in
     seq = 1%Z ∧
     resolutions sent.1 sent.2 = [IResponseMessage.mk 2 "setContents" 1 None]).
Proof.
  split.
  - intros w message Hwf%reachable_wf Hhost promise w' response.
    assert (Hbefore : resolutions promise w = []).
    { apply (wf_resolved _ Hwf). subst promise. unfold sendRequestToClient.
      rewrite Hhost. simpl. lia. }
    assert (Hnow : resolutions promise w' = [response]).
    { subst promise w' response. unfold sendRequestToClient in *.
      rewrite Hhost in *. simpl in *.
      rewrite resolutions_call_resolve, decide_True by done.
      unfold resolutions in *. simpl. by rewrite Hbefore. }
    split_and!; try done.
    + intros ops. apply resolved_once_forever; [|done].
      by apply wf_sendRequestToClient.
    + simpl. lia.
    + subst w'. unfold sendRequestToClient. by rewrite Hhost.
    + subst w'. unfold sendRequestToClient. by rewrite Hhost.
  - intros o fields. simpl. split; reflexivity.
Qed.

(** ** Responses *)

(** C7.  A response whose [request_seq] has no pending request leaves
    the world as it was: no resolver is called, every pending entry
    stays, and the listener returns.  A response that finds its request
    resolves that request's promise, which was unresolved, and removes
    that entry only, so that a second response with the same
    [request_seq] is dropped in turn.  In every world that the two
    modules reach from their initial state, no promise's [resolve] has
    been called twice. *)
Theorem unmatched_response_dropped :
  (∀ w (m : IResponseMessage.t),
     msgIdToSeq w !! IResponseMessage.request_seq m = None →
     on_message (Some (msg_response m)) w = w) ∧
  (∀ w (m : IResponseMessage.t) p,
     reachable w →
     msgIdToSeq w !! IResponseMessage.request_seq m = Some p →
     let w' := on_message (Some (msg_response m)) w in
     resolutions p w = [] ∧
     resolutions p w' = [m] ∧
     msgIdToSeq w' = delete (IResponseMessage.request_seq m) (msgIdToSeq w) ∧
     (∀ m' : IResponseMessage.t,
        IResponseMessage.request_seq m' = IResponseMessage.request_seq m →
        on_message (Some (msg_response m')) w' = w') ∧
     (∀ ops, resolutions p (run ops w') = [m])) ∧
  (∀ w p, reachable w → length (resolutions p w) ≤ 1).
Proof.
  split_and!.
  - intros w m Hnone. simpl. by rewrite Hnone.
  - intros w m p Hwf%reachable_wf Hp w'.
    destruct (wf_pending _ Hwf _ _ Hp) as [_ Hbefore].
    assert (Hnow : resolutions p w' = [m]).
    { subst w'. simpl. rewrite Hp, resolutions_call_resolve, decide_True by done.
      unfold resolutions in *. simpl. by rewrite Hbefore. }
    split_and!; try done.
    + subst w'. simpl. by rewrite Hp.
    + intros m' Hsame. subst w'. simpl. rewrite Hp. simpl.
      by rewrite Hsame, lookup_delete_eq.
    + intros ops. apply resolved_once_forever; [|done]. by apply wf_on_message.
  - intros w p Hwf%reachable_wf. by apply wf_once.
Qed.

(** ** The state store *)

Lemma obj_write_eq r f w : obj (write r f w) r = f (obj w r).
Proof. unfold obj, write. simpl. by rewrite lookup_insert_eq. Qed.

(** The guard of the third default in [getState] never holds. *)
Lemma third_guard_false (v : Value) : is_undefined (js_not v) = false.
Proof. reflexivity. Qed.

(** [getState] with a host fills in [filterLevel] and
    [runIdToTreeState], and never writes [runIdLRU]. *)
Lemma getState_hosted w h :
  vscode w = Some h →
  let ret := default (_globalState w) (IVSCode.getState h) in
  (getState w).1 = ret ∧
  IState.filterLevel (obj (getState w).2 ret) =
    Some (default "PASS" (IState.filterLevel (obj w ret))) ∧
  IState.runIdToTreeState (obj (getState w).2 ret) =
    Some (default ∅ (IState.runIdToTreeState (obj w ret))) ∧
  IState.runIdLRU (obj (getState w).2 ret) = IState.runIdLRU (obj w ret).
Proof.
  intros Hh ret. unfold getState. rewrite Hh.
  replace (match IVSCode.getState h with Some ret0 => ret0 | None => _globalState w end)
    with ret by (subst ret; by destruct (IVSCode.getState h)).
  cbn zeta. rewrite !third_guard_false.
  destruct (obj w ret) as [fl tr lru] eqn:Hobj.
  destruct fl, tr; simpl; rewrite ?obj_write_eq, ?Hobj; simpl;
    rewrite ?obj_write_eq, ?Hobj; simpl; done.
Qed.

Lemma getState_complete w h :
  vscode w = Some h →
  let ret := default (_globalState w) (IVSCode.getState h) in
  is_Some (IState.filterLevel (obj w ret)) →
  is_Some (IState.runIdToTreeState (obj w ret)) →
  (getState w).2 = w.
Proof.
  intros Hh ret [fl Hfl] [tr Htr]. unfold getState. rewrite Hh.
  replace (match IVSCode.getState h with Some ret0 => ret0 | None => _globalState w end)
    with ret by (subst ret; by destruct (IVSCode.getState h)).
  cbn zeta. rewrite Hfl. simpl. rewrite Htr. reflexivity.
Qed.

Lemma getState_hosted_obj w h :
  vscode w = Some h →
  let ret := default (_globalState w) (IVSCode.getState h) in
  obj (getState w).2 ret = backfilled (obj w ret).
Proof.
  intros Hh ret. destruct (getState_hosted w h Hh) as (_ & Hfl & Htr & Hlru).
  fold ret in Hfl, Htr, Hlru. unfold backfilled.
  destruct (obj (getState w).2 ret). simpl in *. by subst.
Qed.

Lemma backfilled_complete (s : IState.t) : IState.complete s → backfilled s = s.
Proof.
  destruct s as [fl tr lru]. intros ([? Hfl] & [? Htr] & _). simpl in *. by subst.
Qed.

(** C8.  [getState()] after [setState(state)] returns [state], the very
    object that was stored, with a host that gives back what it was given
    and without a host; it is deep-equal to [state].  Without a host no
    object is written to; with one, the defaults of [filterLevel] and
    [runIdToTreeState] are written into the object where these fields
    are missing, so that an object with the declared fields keeps its
    value. *)
Theorem setState_getState_roundtrip `{!IVSCode.Stores H} w (state : Ref) :
  let ret := (getState (setState state w)).1 in
  let w' := (getState (setState state w)).2 in
  ret = state ∧
  deepEqual w' ret state ∧
  (vscode w = None → heap w' = heap w) ∧
  (is_Some (vscode w) → obj w' ret = backfilled (obj w state)) ∧
  (IState.complete (obj w state) → obj w' ret = obj w state).
Proof.
  intros ret w'. subst ret w'. unfold setState.
  destruct (vscode w) as [h|] eqn:Hh.
  - set (w1 := with_vscode (Some (IVSCode.setState state h)) w).
    assert (Hh1 : vscode w1 = Some (IVSCode.setState state h)) by done.
    destruct (getState_hosted w1 _ Hh1) as (Hret & _).
    pose proof (getState_hosted_obj w1 _ Hh1) as Hobj.
    rewrite IVSCode.getState_setState in Hret, Hobj.
    change ((getState w1).1 = state) in Hret.
    change (obj (getState w1).2 state = backfilled (obj w state)) in Hobj.
    rewrite Hret. split_and!; try done.
    intros Hc. by rewrite Hobj, backfilled_complete.
  - unfold getState. simpl. rewrite Hh. simpl. split_and!; try done.
Qed.

End Properties.

(** ** The LRU discipline *)

Section LRU_Properties.
Import LRU.
#[local] Set Warnings "-clear-no-such-hyp".
Variable cap : nat.
Implicit Types (l X : list string) (s : IState.t) (runId v : string).

Lemma filter_ne_id runId l : runId ∉ l → filter (λ x, x ≠ runId) l = l.
Proof.
  induction l as [|x l IH]; [done|].
  rewrite not_elem_of_cons. intros [Hne Hl].
  rewrite filter_cons_True by done. by rewrite IH.
Qed.

Lemma filter_ne_snoc l v : NoDup (l ++ [v]) → filter (λ x, x ≠ v) (l ++ [v]) = l.
Proof.
  rewrite NoDup_app. intros (_ & Hv & _).
  rewrite filter_app, filter_ne_id.
  - rewrite filter_cons_False by (intros Hne; by apply Hne). by rewrite filter_nil, app_nil_r.
  - intros Hin. apply (Hv v Hin). by apply list_elem_of_singleton.
Qed.

Lemma elem_of_touch x runId l : x ∈ touch runId l ↔ x = runId ∨ x ∈ l.
Proof.
  unfold touch. rewrite elem_of_cons, list_elem_of_filter.
  destruct (decide (x = runId)); naive_solver.
Qed.

Lemma NoDup_touch runId l : NoDup l → NoDup (touch runId l).
Proof.
  intros Hl. unfold touch. apply NoDup_cons. split.
  - rewrite list_elem_of_filter. naive_solver.
  - by apply NoDup_filter.
Qed.

Lemma victim_Some active l v :
  victim cap active l = Some v → cap < length l ∧ list.last l = Some v ∧ v ≠ active.
Proof.
  unfold victim. case_decide; [|done].
  destruct (list.last l) as [v'|]; [|done]. case_decide; [done|].
  intros [= <-]. done.
Qed.

Lemma victim_last active l v :
  cap < length l → list.last l = Some v → v ≠ active → victim cap active l = Some v.
Proof.
  intros Hlen Hlast Hne. unfold victim.
  rewrite decide_True, Hlast, decide_False by done. done.
Qed.

Lemma last_cons_Some x l v : list.last l = Some v → list.last (x :: l) = Some v.
Proof. destruct l as [|y l]; [done|]. by rewrite last_cons_cons. Qed.

Lemma victim_None active l :
  1 ≤ cap → victim cap active (touch active l) = None → length (touch active l) ≤ cap.
Proof.
  intros Hcap. unfold victim. case_decide as Hlen; [|lia].
  unfold touch in *. destruct (filter (λ x, x ≠ active) l) as [|y ys] eqn:Hf.
  { simpl in Hlen. lia. }
  rewrite last_cons_cons.
  destruct (list.last (y :: ys)) as [v|] eqn:Hlast.
  - case_decide as Hv; [|done]. subst v.
    apply last_Some in Hlast as [l' Hl'].
    assert (Hin : active ∈ filter (λ x, x ≠ active) l).
    { rewrite Hf, Hl'. apply elem_of_app. right. by apply list_elem_of_singleton. }
    apply list_elem_of_filter in Hin. naive_solver.
  - by apply last_None in Hlast.
Qed.

Lemma lru_activate runId ts s : lru (activate cap runId ts s) = bump cap runId (lru s).
Proof. unfold activate, bump. by destruct (victim _ _ _). Qed.

Lemma head_bump runId l : head (bump cap runId l) = Some runId.
Proof.
  unfold bump. destruct (victim _ _ _) as [v|] eqn:Hv; [|done].
  apply victim_Some in Hv as (_ & _ & Hne).
  unfold touch. by rewrite filter_cons_True.
Qed.

Lemma elem_of_bump x runId l :
  x ∈ bump cap runId l ↔
    (x = runId ∨ x ∈ l) ∧ victim cap runId (touch runId l) ≠ Some x.
Proof.
  unfold bump. destruct (victim _ _ _) as [v|] eqn:Hv.
  - rewrite list_elem_of_filter, elem_of_touch. naive_solver.
  - rewrite elem_of_touch. naive_solver.
Qed.

Lemma NoDup_bump runId l : NoDup l → NoDup (bump cap runId l).
Proof.
  intros Hl. unfold bump. destruct (victim _ _ _).
  - by apply NoDup_filter, NoDup_touch.
  - by apply NoDup_touch.
Qed.

Lemma length_bump runId l : 1 ≤ cap → length l ≤ cap → length (bump cap runId l) ≤ cap.
Proof.
  intros Hcap Hlen. unfold bump.
  destruct (victim _ _ _) as [v|] eqn:Hv; [|by apply victim_None].
  apply victim_Some in Hv as (_ & Hlast & _).
  apply last_Some in Hlast as [l' Hl'].
  assert (Hin : v ∈ touch runId l).
  { rewrite Hl'. apply elem_of_app. right. by apply list_elem_of_singleton. }
  pose proof (length_filter_lt (λ x, x ≠ v) (touch runId l) v Hin) as Hlt.
  pose proof (length_filter (λ x, x ≠ runId) l) as Hle.
  unfold touch in Hlt at 2. simpl in Hlt.
  assert (¬ v ≠ v) as Hvv by naive_solver. specialize (Hlt Hvv). lia.
Qed.

Lemma trees_activate runId ts s k :
  is_Some (trees (activate cap runId ts s) !! k) ↔
    (k = runId ∨ is_Some (trees s !! k)) ∧ victim cap runId (touch runId (lru s)) ≠ Some k.
Proof.
  unfold activate.
  set (m := match trees s !! runId with Some _ => trees s | None => <[runId:=ts]> (trees s) end).
  assert (Hm : is_Some (m !! k) ↔ k = runId ∨ is_Some (trees s !! k)).
  { subst m. destruct (trees s !! runId) eqn:Hr.
    - split; [by right|]. intros [->|?]; [by rewrite Hr|done].
    - rewrite lookup_insert. case_decide; subst; naive_solver. }
  destruct (victim _ _ _) as [v|] eqn:Hv; unfold trees at 1; simpl.
  - rewrite lookup_delete. case_decide; subst.
    + split; [by intros [? ?]|]. naive_solver.
    + rewrite Hm. naive_solver.
  - rewrite Hm. naive_solver.
Qed.

Lemma consistent_activate runId ts s : consistent s → consistent (activate cap runId ts s).
Proof.
  intros [Hnd Hkeys]. split.
  - rewrite lru_activate. by apply NoDup_bump.
  - intros k. rewrite lru_activate, elem_of_bump, trees_activate, Hkeys. done.
Qed.

Lemma consistent_start : consistent start.
Proof.
  split; [constructor|]. intros k. unfold lru, trees, start. simpl.
  rewrite lookup_empty, elem_of_nil. split; [done|]. by intros [? ?].
Qed.

Lemma consistent_activate_all runs s : consistent s → consistent (activate_all cap runs s).
Proof.
  revert s. induction runs as [|run runs IH]; intros s Hs; [done|].
  simpl. apply IH. by apply consistent_activate.
Qed.

(** With the cap reached and a new identifier, the last of the list
    goes, from the list and from the map. *)
Lemma activate_evicts runId ts s :
  1 ≤ cap → consistent s → runId ∉ lru s → length (lru s) = cap →
  ∃ l v, lru s = l ++ [v] ∧ lru (activate cap runId ts s) = runId :: l ∧
         trees (activate cap runId ts s) !! v = None.
Proof.
  intros Hcap [Hnd Hkeys] Hnew Hlen.
  destruct (list.last (lru s)) as [v|] eqn:Hlast.
  2: { apply last_None in Hlast. rewrite Hlast in Hlen. simpl in Hlen. lia. }
  pose proof Hlast as [l Hl]%last_Some. exists l, v.
  assert (Hv : v ∈ lru s).
  { rewrite Hl. apply elem_of_app. right. by apply list_elem_of_singleton. }
  assert (Hne : v ≠ runId) by (intros ->; done).
  assert (Htouch : touch runId (lru s) = runId :: lru s).
  { unfold touch. by rewrite filter_ne_id. }
  assert (Hvictim : victim cap runId (touch runId (lru s)) = Some v).
  { rewrite Htouch. apply victim_last; [simpl; lia|by apply last_cons_Some|done]. }
  split_and!; [done| |].
  - rewrite lru_activate. unfold bump. rewrite Hvictim, Htouch.
    rewrite filter_cons_True by done. f_equal.
    rewrite Hl. apply filter_ne_snoc. by rewrite <-Hl.
  - destruct (trees (activate cap runId ts s) !! v) eqn:Hlook; [|done].
    assert (is_Some (trees (activate cap runId ts s) !! v)) as Hs by done.
    apply trees_activate in Hs as [_ Hnot]. done.
Qed.

(** *** Sequences of activations *)

Lemma NoDup_recency history : NoDup (recency history).
Proof.
  induction history as [|runId history IH]; [constructor|].
  apply (NoDup_touch runId _ IH).
Qed.

Lemma recency_NoDup history : NoDup history → recency history = history.
Proof.
  induction history as [|runId history IH]; [done|].
  intros [Hnotin Hnd]%NoDup_cons. simpl. rewrite IH by done.
  by rewrite filter_ne_id.
Qed.

Lemma take_filter_ne_notin runId X n :
  runId ∉ take n X → take n (filter (λ x, x ≠ runId) X) = take n X.
Proof.
  revert n. induction X as [|x X IH]; intros n; [done|].
  destruct n as [|n]; [done|]. simpl. rewrite not_elem_of_cons. intros [Hne Hnotin].
  rewrite filter_cons_True by done. simpl. by rewrite IH.
Qed.

Lemma filter_ne_take_in runId X n :
  NoDup X → runId ∈ take (S n) X →
  filter (λ x, x ≠ runId) (take (S n) X) = take n (filter (λ x, x ≠ runId) X).
Proof.
  revert n. induction X as [|x X IH]; intros n Hnd Hin.
  { by apply elem_of_nil in Hin. }
  apply NoDup_cons in Hnd as [Hx Hnd]. simpl in Hin |- *.
  destruct (decide (x = runId)) as [->|Hne].
  - rewrite !filter_cons_False by naive_solver.
    rewrite filter_ne_id by (intros ?%subseteq_take; done).
    by rewrite filter_ne_id.
  - rewrite !filter_cons_True by done.
    apply elem_of_cons in Hin as [Heq|Hin]; [congruence|].
    destruct n as [|n]; [by apply elem_of_nil in Hin|].
    simpl. by rewrite IH.
Qed.

(** One activation on the [cap] most recent identifiers of a history
    gives the [cap] most recent ones of the history that it extends. *)
Lemma bump_take runId X :
  1 ≤ cap → NoDup X → bump cap runId (take cap X) = take cap (touch runId X).
Proof.
  intros Hcap Hnd. destruct cap as [|n] eqn:Hn; [lia|]. rewrite <-Hn.
  assert (Hrhs : take cap (touch runId X) = runId :: take n (filter (λ x, x ≠ runId) X)).
  { rewrite Hn. done. }
  rewrite Hrhs. clear Hrhs.
  assert (Hnd' : NoDup (take cap X)).
  { eapply sublist_NoDup; [done|apply sublist_take]. }
  destruct (decide (runId ∈ take cap X)) as [Hin|Hnotin].
  - (* already among them: it moves to the front, nobody leaves *)
    assert (Hlen : length (touch runId (take cap X)) ≤ cap).
    { unfold touch. simpl.
      pose proof (length_filter_lt (λ x, x ≠ runId) (take cap X) runId Hin) as Hlt.
      assert (¬ runId ≠ runId) as Hrr by naive_solver. specialize (Hlt Hrr).
      rewrite length_take in Hlt. lia. }
    unfold bump, victim. rewrite decide_False by lia.
    unfold touch. f_equal. rewrite Hn in Hin |- *. by apply filter_ne_take_in.
  - assert (Htouch : touch runId (take cap X) = runId :: take cap X).
    { unfold touch. by rewrite filter_ne_id. }
    assert (Hkeep : take n (filter (λ x, x ≠ runId) X) = take n X).
    { transitivity (take n (take cap (filter (λ x, x ≠ runId) X))).
      - rewrite take_take. f_equal. lia.
      - rewrite take_filter_ne_notin by done. rewrite take_take. f_equal. lia. }
    rewrite Hkeep. unfold bump. rewrite Htouch.
    destruct (decide (cap ≤ length X)) as [Hfull|Hshort].
    + (* [cap] identifiers and a new one: the last of them leaves *)
      assert (Hlen : length (take cap X) = cap) by (rewrite length_take; lia).
      destruct (list.last (take cap X)) as [v|] eqn:Hlast.
      2: { apply last_None in Hlast. rewrite Hlast in Hlen. simpl in Hlen. lia. }
      pose proof Hlast as [l Hl]%last_Some.
      assert (Hv : v ∈ take cap X).
      { rewrite Hl. apply elem_of_app. right. by apply list_elem_of_singleton. }
      assert (Hne : v ≠ runId) by (intros ->; done).
      assert (Hvictim : victim cap runId (runId :: take cap X) = Some v).
      { apply victim_last; [simpl; lia|by apply last_cons_Some|done]. }
      rewrite Hvictim, filter_cons_True by done. f_equal.
      rewrite Hl, filter_ne_snoc by (by rewrite <-Hl).
      assert (Hln : length l = n).
      { rewrite Hl, length_app in Hlen. simpl in Hlen. lia. }
      rewrite <-(take_app_length' l [v] n) by done.
      rewrite <-Hl, take_take. f_equal. lia.
    + (* fewer than [cap]: nobody leaves *)
      unfold victim. simpl. rewrite decide_False by (rewrite length_take; lia).
      f_equal. rewrite !take_ge by lia. done.
Qed.

Lemma lru_activate_all runs :
  1 ≤ cap →
  lru (activate_all cap runs start) = take cap (recency (reverse runs.*1)).
Proof.
  intros Hcap. induction runs as [|run runs IH] using rev_ind.
  { simpl. by rewrite take_nil. }
  unfold activate_all in *. rewrite foldl_snoc, lru_activate, IH.
  rewrite fmap_snoc, reverse_snoc. simpl.
  apply bump_take; [done|apply NoDup_recency].
Qed.

(** C6.  Under a cap of at least one, an activation puts the run at the
    most-recently-used position of [runIdLRU], keeps the store
    consistent (the keys of [runIdToTreeState] are the elements of
    [runIdLRU], each once), keeps the active run, and keeps the bound;
    when the cap is reached and the run is new, the least recently
    activated identifier leaves the list and the map.  After any
    sequence of activations from the initial state, [runIdLRU] holds
    the [cap] most recently activated identifiers, most recent first;
    after [cap + 1] distinct ones, all but the first. *)
Theorem lru_discipline :
  1 ≤ cap →
  (∀ s runId ts,
     consistent s →
     let s' := activate cap runId ts s in
     head (lru s') = Some runId ∧
     consistent s' ∧
     is_Some (trees s' !! runId) ∧
     (length (lru s) ≤ cap → length (lru s') ≤ cap) ∧
     (runId ∉ lru s → length (lru s) = cap →
      ∃ l v, lru s = l ++ [v] ∧ lru s' = runId :: l ∧ trees s' !! v = None)) ∧
  (∀ runs,
     let s' := activate_all cap runs start in
     consistent s' ∧
     lru s' = take cap (recency (reverse runs.*1)) ∧
     length (lru s') ≤ cap) ∧
  (∀ runs,
     NoDup runs.*1 → length runs = S cap →
     lru (activate_all cap runs start) = reverse (drop 1 runs.*1)).
Proof.
  intros Hcap. split_and!.
  - intros s runId ts Hs s'.
    assert (Hhead : head (lru s') = Some runId).
    { subst s'. rewrite lru_activate. apply head_bump. }
    assert (Hs' : consistent s') by (by apply consistent_activate).
    split_and!; try done.
    + apply Hs'. destruct (lru s') as [|x l]; [done|].
      simpl in Hhead. injection Hhead as ->. apply elem_of_cons. by left.
    + intros Hlen. subst s'. rewrite lru_activate. by apply length_bump.
    + intros Hnew Hlen. by apply activate_evicts.
  - intros runs s'. subst s'. split_and!.
    + apply consistent_activate_all, consistent_start.
    + by apply lru_activate_all.
    + rewrite lru_activate_all by done. rewrite length_take. lia.
  - intros runs Hnd Hlen. rewrite lru_activate_all by done.
    rewrite recency_NoDup by (by rewrite reverse_Permutation).
    rewrite take_reverse. f_equal. f_equal.
    rewrite length_fmap, Hlen. lia.
Qed.
End LRU_Properties.

(** [showTime] survives [setContents]: with the toggle set while run ["A"]
    was shown, the options after [setContents] for run ["B"] differ from
    those after the same call without it. *)
Lemma setContents_carries_showTime_over :
  ¬ replaced_wholesale (H := Webview.t) Scenario.run_B.
Proof.
  intros Hclaim.
  specialize (Hclaim Scenario.active_A
                (IOpts.set_showTime true Scenario.opts0) Scenario.opts0).
  vm_compute in Hclaim. discriminate Hclaim.
Qed.

(** A chunk for run ["A"] arrives while run ["B"] is active. *)
Lemma appendContents_stale_noop_witness :
  IOpts.runId (opts Scenario.active_B) = Some "B" ∧
  appendContents Scenario.chunk_A Scenario.active_B = Scenario.active_B.
Proof.
  split; [reflexivity|].
  apply (appendContents_stale_noop Scenario.active_B Scenario.chunk_A).
  vm_compute. discriminate.
Defined.

(** The scenarios are runs from the initial world. *)
Lemma scenario_reachable (ops : list Op) : reachable (run ops Scenario.standalone).
Proof. apply reachable_run, reachable_initial. Qed.

(** A chunk for run ["A"] arrives before any [setContents]. *)
Lemma appendContents_without_treeBuilder_witness :
  IOpts.appendedContents (opts (appendContents Scenario.chunk_A Scenario.named_A)) = ["more"] ∧
  calls (appendContents Scenario.chunk_A Scenario.named_A) = [].
Proof.
  pose proof (appendContents_without_treeBuilder Scenario.named_A Scenario.chunk_A
                eq_refl eq_refl) as (Happ & Hcalls & _).
  split; [exact Happ | exact Hcalls].
Defined.

(** C5, at a state that the host stored without [runIdLRU]: [getState]
    returns that object with [runIdLRU] still [undefined]; the guard
    [!ret.runIdLRU === undefined] of the third default is never true. *)
Lemma getState_leaves_runIdLRU_undefined :
  let ret := (getState Scenario.legacy).1 in
  let w' := (getState Scenario.legacy).2 in
  ret = 1%nat ∧
  IState.runIdLRU (obj Scenario.legacy ret) = None ∧
  IState.runIdLRU (obj w' ret) = None ∧
  IState.runIdLRU (obj w' ret) ≠ Some [].
Proof. vm_compute. split_and!; done. Qed.

(** [setContents] for run ["B"] while run ["A"] is active. *)
Lemma setContents_saves_then_rebuilds_witness :
  reachable Scenario.active_A ∧
  new_calls Scenario.active_A (setContents Scenario.run_B Scenario.active_A) =
    [SaveTreeState (opts Scenario.active_A); NewTreeBuilder 1; ClearAndInitializeTree 1;
     AddInitialContents 1 (opts Scenario.active_B)] ∧
  ¬ created 1 Scenario.active_A.
Proof.
  pose proof (setContents_saves_then_rebuilds Scenario.active_A Scenario.run_B)
    as (_ & Hnew & _ & _ & _ & Hfresh).
  pose proof (scenario_reachable [op_setContents Scenario.run_A]) as Hwf.
  split_and!; [exact Hwf | exact Hnew | exact (Hfresh Hwf)].
Defined.

(** The request with [seq] 1 is sent without a host. *)
Lemma sendRequestToClient_standalone_witness :
  vscode Scenario.counted = None ∧
  resolutions (sendRequestToClient Scenario.request1 Scenario.counted).1
              (sendRequestToClient Scenario.request1 Scenario.counted).2
    = [IResponseMessage.mk 2 "setContents" 1 None].
Proof.
  pose proof (proj1 (sendRequestToClient_standalone (H := Webview.t))
                Scenario.counted Scenario.request1
                (scenario_reachable [op_nextMessageSeq]) eq_refl) as (_ & Hres & _).
  split; [reflexivity | exact Hres].
Defined.

(** A response that nobody waits for, then a response and its duplicate
    for the pending request. *)
Lemma unmatched_response_dropped_witness :
  msgIdToSeq Scenario.standalone !! 1%Z = None ∧
  on_message (Some (msg_response Scenario.response1)) Scenario.standalone
    = Scenario.standalone ∧
  msgIdToSeq Scenario.pending !! 1%Z = Some 0%nat ∧
  let answered := on_message (Some (msg_response Scenario.response1)) Scenario.pending in
  resolutions 0%nat answered = [Scenario.response1] ∧
  on_message (Some (msg_response Scenario.duplicate1)) answered = answered.
Proof.
  destruct (unmatched_response_dropped (H := Webview.t)) as (Hdrop & Hmatch & _).
  pose proof (Hdrop Scenario.standalone Scenario.response1 eq_refl) as Hstray.
  pose proof (Hmatch Scenario.pending Scenario.response1 0%nat
                (scenario_reachable [op_setVSCodeAPI Webview.fresh; op_nextMessageSeq;
                              op_sendRequestToClient Scenario.request1])
                eq_refl) as (_ & Hres & _ & Hdup & _).
  split_and!; [reflexivity | exact Hstray | reflexivity |].
  intros answered. split; [exact Hres | exact (Hdup Scenario.duplicate1 eq_refl)].
Defined.

(** A state object with all its fields goes to the webview and back. *)
Lemma setState_getState_roundtrip_witness :
  IState.complete (obj (Scenario.with_some_state Scenario.hosted) 1%nat) ∧
  (getState (setState 1%nat (Scenario.with_some_state Scenario.hosted))).1 = 1%nat ∧
  obj (getState (setState 1%nat (Scenario.with_some_state Scenario.hosted))).2 1%nat
    = Scenario.some_state.
Proof.
  assert (Hc : IState.complete (obj (Scenario.with_some_state Scenario.hosted) 1%nat)).
  { repeat split; eexists; reflexivity. }
  pose proof (setState_getState_roundtrip (H := Webview.t)
                (Scenario.with_some_state Scenario.hosted) 1%nat)
    as (Hret & _ & _ & _ & Hval).
  split_and!; [exact Hc | exact Hret | exact (Hval Hc)].
Defined.

(** Runs ["A"], ["B"], ["C"] under a cap of two: ["A"] leaves. *)
Lemma lru_discipline_witness :
  1 ≤ 2 ∧
  LRU.consistent Scenario.two_runs ∧
  (∃ l v, LRU.lru Scenario.two_runs = l ++ [v] ∧
          LRU.lru (LRU.activate 2 "C" "tree of C" Scenario.two_runs) = "C" :: l ∧
          LRU.trees (LRU.activate 2 "C" "tree of C" Scenario.two_runs) !! v = None) ∧
  LRU.lru (LRU.activate_all 2 Scenario.three_runs LRU.start) = ["C"; "B"].
Proof.
  assert (Hcap : 1 ≤ 2) by lia.
  destruct (lru_discipline 2 Hcap) as (Hstep & Hall & Hdistinct).
  destruct (Hall [("A", "tree of A"); ("B", "tree of B")]) as (Hcons & _ & _).
  destruct (Hstep Scenario.two_runs "C" "tree of C" Hcons) as (_ & _ & _ & _ & Hevict).
  split_and!; [exact Hcap | exact Hcons | |].
  - apply Hevict; [|reflexivity]. vm_compute. intros Hin.
    repeat (apply elem_of_cons in Hin as [Hin|Hin]; [discriminate Hin|]).
    by apply elem_of_nil in Hin.
  - apply (Hdistinct Scenario.three_runs); [|reflexivity].
    apply (bool_decide_unpack _). vm_compute. exact I.
Defined.

(** * Further properties of the transport *)

Section Transport.
Context {H : Type} `{!IVSCode.t H}.
Implicit Types (w : World H) (p : Promise) (k : Z).

Lemma resolutions_same_calls p w w' : calls w' = calls w → resolutions p w' = resolutions p w.
Proof. unfold resolutions. by intros ->. Qed.

(** With a host, [sendRequestToClient message] hands [message] itself to
    the host, takes no sequence number, and leaves the promise it returns
    pending under [message.seq]; the response that carries this number in
    [request_seq] then resolves the promise with that response and takes
    the entry away again. *)
Theorem request_response_roundtrip w (h : H) (message : IRequestMessage.t)
    (response : IResponseMessage.t) :
  reachable w →
  vscode w = Some h →
  IResponseMessage.request_seq response = IRequestMessage.seq message →
  let promise := (sendRequestToClient message w).1 in
  let sent := (sendRequestToClient message w).2 in
  let answered := on_message (Some (msg_response response)) sent in
  vscode sent = Some (IVSCode.postMessage (post_request message) h) ∧
  _lastMessageId sent = _lastMessageId w ∧
  calls sent = calls w ∧
  msgIdToSeq sent = <[IRequestMessage.seq message := promise]> (msgIdToSeq w) ∧
  resolutions promise sent = [] ∧
  resolutions promise answered = [response] ∧
  msgIdToSeq answered = delete (IRequestMessage.seq message) (msgIdToSeq w).
Proof.
  intros Hwf%reachable_wf Hh Hseq promise sent answered.
  assert (Hp : promise = nextPromise w).
  { subst promise. unfold sendRequestToClient. by rewrite Hh. }
  assert (Hsent : sent =
    with_vscode (Some (IVSCode.postMessage (post_request message) h))
      (with_msgIdToSeq (<[IRequestMessage.seq message := promise]> (msgIdToSeq w))
         (with_nextPromise (S promise) w))).
  { subst sent. rewrite Hp. unfold sendRequestToClient. by rewrite Hh. }
  assert (Hnone : resolutions promise sent = []).
  { rewrite (resolutions_same_calls promise w sent) by (by rewrite Hsent).
    apply (wf_resolved _ Hwf). lia. }
  assert (Hlook : msgIdToSeq sent !! IResponseMessage.request_seq response = Some promise).
  { rewrite Hseq, Hsent. simpl. apply lookup_insert_eq. }
  split_and!; try (rewrite Hsent; done); try done.
  - subst answered. simpl. rewrite Hlook, resolutions_call_resolve, decide_True by done.
    unfold resolutions in *. simpl. by rewrite Hnone.
  - subst answered. simpl. rewrite Hlook. simpl. rewrite Hseq, Hsent. simpl.
    apply delete_insert_eq.
Qed.

(** *** Orphans *)

Lemma orphan_kept p w w' : kept w w' → orphan p w → orphan p w'.
Proof.
  intros Hk (Hlt & Hres & Hreg). pose proof Hk as (Hm & Hn & _ & _).
  unfold orphan. rewrite Hm, Hn, (kept_resolutions w w') by done. done.
Qed.

Lemma setContents_resolutions msg w p :
  resolutions p (setContents msg w) = resolutions p w.
Proof.
  destruct (setContents_bookkeeping msg w) as (_ & _ & _ & Hl).
  unfold resolutions.
  rewrite <-(resolved_with_ledger p (calls (setContents msg w))), Hl.
  rewrite resolved_with_app, resolved_with_ledger. simpl. by rewrite app_nil_r.
Qed.

Lemma orphan_setContents msg p w : orphan p w → orphan p (setContents msg w).
Proof.
  intros (Hlt & Hres & Hreg).
  destruct (setContents_bookkeeping msg w) as (Hm & Hn & _ & _).
  unfold orphan. rewrite Hm, Hn, setContents_resolutions. done.
Qed.

Lemma orphan_sendRequestToClient message p w :
  orphan p w → orphan p (sendRequestToClient message w).2.
Proof.
  intros (Hlt & Hres & Hreg). unfold sendRequestToClient.
  destruct (vscode w) as [h|]; simpl.
  - split_and!; simpl; [lia|done|].
    intros k. rewrite lookup_insert. case_decide; [|apply Hreg].
    intros [= Heq]. lia.
  - split_and!; simpl; [lia| |done].
    rewrite resolutions_call_resolve, decide_False by lia.
    rewrite app_nil_r. exact Hres.
Qed.

Lemma orphan_on_message data p w : orphan p w → orphan p (on_message data w).
Proof.
  intros Horph. pose proof Horph as (Hlt & Hres & Hreg).
  destruct data as [[m|m|req|ty]|]; try done.
  - simpl. destruct (msgIdToSeq w !! IResponseMessage.request_seq m) as [q|] eqn:Hq; [|done].
    split_and!; simpl; [done| |].
    + rewrite resolutions_call_resolve, decide_False; [by rewrite app_nil_r|].
      intros ->. by apply (Hreg _ Hq).
    + intros k. rewrite lookup_delete. case_decide; [done|apply Hreg].
  - simpl. destruct (eventToHandler w !! _) as [[handler|]|];
      (eapply orphan_kept; [|done]); unfold kept; simpl; rewrite ?ledger_app; simpl;
      rewrite ?app_nil_r; done.
  - destruct req as [m|m|m|m]; simpl; unfold unhandled_request, updateLabel;
      repeat case_match; try done;
      try (by apply orphan_setContents);
      (eapply orphan_kept; [|done]); try apply appendContents_kept;
      unfold kept; simpl; rewrite ?ledger_app; simpl; rewrite ?app_nil_r; done.
Qed.

Lemma orphan_step o p w : orphan p w → orphan p (step o w).
Proof.
  intros Horph. destruct o; simpl;
    try (by apply orphan_sendRequestToClient);
    try (by apply orphan_on_message);
    try (by apply orphan_setContents);
    try done;
    (eapply orphan_kept; [|done]);
    first [ apply sendEventToClient_kept | apply getState_kept | apply setState_kept
          | apply appendContents_kept | apply onClickReference_kept
          | apply onChangedRun_kept
          | unfold kept; simpl; done ].
Qed.

Lemma orphan_run ops p w : orphan p w → orphan p (run ops w).
Proof.
  revert w. induction ops as [|o ops IH]; intros w Horph; simpl; [done|].
  apply IH. by apply orphan_step.
Qed.

(** A request sent under a sequence number that is still pending takes
    the place of the earlier one in the registry: the promise of the
    earlier request is never resolved, whatever arrives and whatever the
    modules do afterwards. *)
Theorem overwritten_request_never_resolved w (h : H) (first second : IRequestMessage.t) :
  reachable w →
  vscode w = Some h →
  IRequestMessage.seq second = IRequestMessage.seq first →
  let promise1 := (sendRequestToClient first w).1 in
  let w1 := (sendRequestToClient first w).2 in
  let promise2 := (sendRequestToClient second w1).1 in
  let w2 := (sendRequestToClient second w1).2 in
  promise2 ≠ promise1 ∧
  msgIdToSeq w2 !! IRequestMessage.seq first = Some promise2 ∧
  ∀ ops, resolutions promise1 (run ops w2) = [].
Proof.
  intros Hwf%reachable_wf Hh Hseq promise1 w1 promise2 w2.
  assert (Hp1 : promise1 = nextPromise w).
  { subst promise1. unfold sendRequestToClient. by rewrite Hh. }
  assert (Hw1 : w1 =
    with_vscode (Some (IVSCode.postMessage (post_request first) h))
      (with_msgIdToSeq (<[IRequestMessage.seq first := promise1]> (msgIdToSeq w))
         (with_nextPromise (S promise1) w))).
  { subst w1. rewrite Hp1. unfold sendRequestToClient. by rewrite Hh. }
  assert (Hp2 : promise2 = S promise1).
  { subst promise2. rewrite Hw1. unfold sendRequestToClient. done. }
  assert (Hw2 : msgIdToSeq w2 =
    <[IRequestMessage.seq first := promise2]> (msgIdToSeq w)).
  { subst w2. rewrite Hp2, Hw1. unfold sendRequestToClient. simpl.
    rewrite Hseq. apply insert_insert_eq. }
  assert (Horph : orphan promise1 w2).
  { split_and!.
    - subst w2. rewrite Hw1. unfold sendRequestToClient. simpl. lia.
    - rewrite (resolutions_same_calls promise1 w w2).
      + apply (wf_resolved _ Hwf). lia.
      + subst w2. rewrite Hw1. unfold sendRequestToClient. done.
    - intros k. rewrite Hw2, lookup_insert. case_decide.
      + intros [= Heq]. lia.
      + intros Hk. destruct (wf_pending _ Hwf _ _ Hk). lia. }
  split_and!.
  - lia.
  - rewrite Hw2. apply lookup_insert_eq.
  - intros ops. by destruct (orphan_run ops _ _ Horph) as (_ & Hres & _).
Qed.

(** *** Pending requests *)

Lemma step_keeps_entry o k p w :
  ¬ concerns k o → msgIdToSeq w !! k = Some p → msgIdToSeq (step o w) !! k = Some p.
Proof.
  intros Hnot Hk.
  assert (Hkept : ∀ w', kept w w' → msgIdToSeq w' !! k = Some p).
  { intros w' (-> & _). done. }
  assert (Hset : ∀ m, msgIdToSeq (setContents m w) !! k = Some p).
  { intros m. by destruct (setContents_bookkeeping m w) as (-> & _). }
  destruct o; cbn [step concerns] in *;
    try (apply Hkept;
         first [ apply sendEventToClient_kept | apply getState_kept | apply setState_kept
               | apply appendContents_kept | apply onClickReference_kept
               | apply onChangedRun_kept | unfold kept; simpl; done ]).
  - unfold sendRequestToClient. destruct (vscode w); simpl; [|done].
    by rewrite lookup_insert_ne.
  - destruct data as [[m|m|req|ty]|]; cbn [on_message]; try done.
    + destruct (msgIdToSeq w !! IResponseMessage.request_seq m); simpl; [|done].
      by rewrite lookup_delete_ne.
    + by destruct (eventToHandler w !! _) as [[handler|]|].
    + destruct req; unfold unhandled_request, updateLabel; repeat case_match; try done;
        first [ apply Hset | apply Hkept, appendContents_kept ].
  - apply Hset.
Qed.

(** There is no timeout: a pending request stays pending, its promise
    unresolved, through every step except a response with its number in
    [request_seq] and another request sent under its number. *)
Theorem pending_until_answered w k p (ops : list Op) :
  reachable w →
  msgIdToSeq w !! k = Some p →
  Forall (λ o, ¬ concerns k o) ops →
  msgIdToSeq (run ops w) !! k = Some p ∧ resolutions p (run ops w) = [].
Proof.
  intros Hwf%reachable_wf Hk Hops.
  assert (Hentry : msgIdToSeq (run ops w) !! k = Some p).
  { clear Hwf. revert w Hk. induction Hops as [|o ops Ho Hops IH]; intros w Hk; [done|].
    simpl. apply IH. by apply step_keeps_entry. }
  split; [done|].
  by destruct (wf_pending _ (wf_run ops w Hwf) _ _ Hentry).
Qed.

Lemma on_message_matched (m : IResponseMessage.t) q w :
  msgIdToSeq w !! IResponseMessage.request_seq m = Some q →
  on_message (Some (msg_response m)) w =
    call (ResolvePromise q m)
      (with_msgIdToSeq (delete (IResponseMessage.request_seq m) (msgIdToSeq w)) w).
Proof. intros Hq. cbn [on_message]. by rewrite Hq. Qed.

(** Responses are matched by [request_seq], not by arrival: the responses
    to two pending requests resolve each promise with its own response
    and leave the same registry, in whichever order they arrive. *)
Theorem responses_in_any_order w (r1 r2 : IResponseMessage.t) p1 p2 :
  reachable w →
  msgIdToSeq w !! IResponseMessage.request_seq r1 = Some p1 →
  msgIdToSeq w !! IResponseMessage.request_seq r2 = Some p2 →
  IResponseMessage.request_seq r1 ≠ IResponseMessage.request_seq r2 →
  let w12 := on_message (Some (msg_response r2)) (on_message (Some (msg_response r1)) w) in
  let w21 := on_message (Some (msg_response r1)) (on_message (Some (msg_response r2)) w) in
  msgIdToSeq w12 = msgIdToSeq w21 ∧
  (∀ p, resolutions p w12 = resolutions p w21) ∧
  resolutions p1 w12 = [r1] ∧
  resolutions p2 w12 = [r2].
Proof.
  intros Hwf%reachable_wf H1 H2 Hne w12 w21.
  destruct (wf_pending _ Hwf _ _ H1) as [_ Hn1].
  destruct (wf_pending _ Hwf _ _ H2) as [_ Hn2].
  assert (Hp : p1 ≠ p2).
  { intros ->. apply Hne. by eapply (wf_distinct _ Hwf). }
  assert (F12 : w12 =
    call (ResolvePromise p2 r2)
      (with_msgIdToSeq
         (delete (IResponseMessage.request_seq r2)
            (delete (IResponseMessage.request_seq r1) (msgIdToSeq w)))
         (call (ResolvePromise p1 r1) w))).
  { subst w12. rewrite (on_message_matched r1 p1 w H1).
    rewrite (on_message_matched r2 p2); [done|].
    simpl. by rewrite lookup_delete_ne. }
  assert (F21 : w21 =
    call (ResolvePromise p1 r1)
      (with_msgIdToSeq
         (delete (IResponseMessage.request_seq r1)
            (delete (IResponseMessage.request_seq r2) (msgIdToSeq w)))
         (call (ResolvePromise p2 r2) w))).
  { subst w21. rewrite (on_message_matched r2 p2 w H2).
    rewrite (on_message_matched r1 p1); [done|].
    simpl. by rewrite lookup_delete_ne. }
  assert (E12 : ∀ p, resolutions p w12 =
    (resolutions p w ++ (if decide (p1 = p) then [r1] else []))
      ++ (if decide (p2 = p) then [r2] else [])).
  { intros p. rewrite F12, resolutions_call_resolve. f_equal.
    rewrite <-resolutions_call_resolve. by apply resolutions_same_calls. }
  assert (E21 : ∀ p, resolutions p w21 =
    (resolutions p w ++ (if decide (p2 = p) then [r2] else []))
      ++ (if decide (p1 = p) then [r1] else [])).
  { intros p. rewrite F21, resolutions_call_resolve. f_equal.
    rewrite <-resolutions_call_resolve. by apply resolutions_same_calls. }
  split_and!.
  - rewrite F12, F21. simpl. apply delete_delete.
  - intros p. rewrite E12, E21.
    destruct (decide (p1 = p)), (decide (p2 = p)); subst; rewrite ?app_nil_r; done.
  - rewrite E12, Hn1, decide_True, decide_False by done. done.
  - rewrite E12, Hn2, decide_False, decide_True by done. done.
Qed.

End Transport.

(** * Further properties of the controller and of the dispatch *)

Section Controller.
Context {H : Type} `{!IVSCode.t H}.
Implicit Types (w : World H) (tb : TreeBuilder).

(** ** The host binding *)

Lemma getState_vscode w : vscode (getState w).2 = vscode w.
Proof.
  unfold getState. destruct (vscode w) as [h|] eqn:Hh; [|done]. simpl.
  repeat (case_match; simpl); done.
Qed.

Lemma sendEventToClient_vscode_Some m w :
  is_Some (vscode w) → is_Some (vscode (sendEventToClient m w)).
Proof. intros [h Hh]. unfold sendEventToClient. rewrite Hh. simpl. eauto. Qed.

Lemma setContents_vscode msg w : vscode (setContents msg w) = vscode w.
Proof. unfold setContents, saveTreeState. simpl. by destruct (isInVSCode _). Qed.

Lemma appendContents_vscode msg w : vscode (appendContents msg w) = vscode w.
Proof. unfold appendContents. repeat (case_match; simpl); done. Qed.

Lemma step_vscode_Some o w : is_Some (vscode w) → is_Some (vscode (step o w)).
Proof.
  intros Hs. destruct o; cbn [step].
  - by eexists.
  - destruct Hs as [h Hh]. unfold sendRequestToClient. rewrite Hh. by eexists.
  - by apply sendEventToClient_vscode_Some.
  - destruct data as [[m|m|req|ty]|]; cbn [on_message]; try done.
    + by destruct (msgIdToSeq w !! _).
    + by destruct (eventToHandler w !! _) as [[handler|]|].
    + destruct req; unfold unhandled_request, updateLabel; repeat case_match; try done;
        by rewrite ?setContents_vscode, ?appendContents_vscode.
  - done.
  - by rewrite getState_vscode.
  - destruct Hs as [h Hh]. unfold setState. rewrite Hh. by eexists.
  - by rewrite setContents_vscode.
  - done.
  - done.
  - by rewrite appendContents_vscode.
  - done.
  - unfold onClickReference. simpl. by apply sendEventToClient_vscode_Some.
  - unfold onChangedRun. simpl. by apply sendEventToClient_vscode_Some.
  - done.
  - done.
  - done.
  - done.
Qed.

(** Once a host is bound nothing unbinds it: in every later world
    [isInVSCode()] holds, and a request that is sent is registered and
    posted, never answered on the spot. *)
Theorem host_binding_stays w (ops : list Op) :
  isInVSCode w = true →
  isInVSCode (run ops w) = true ∧
  ∀ message : IRequestMessage.t,
    let sent := sendRequestToClient message (run ops w) in
    calls sent.2 = calls (run ops w) ∧
    msgIdToSeq sent.2 !! IRequestMessage.seq message = Some sent.1.
Proof.
  unfold isInVSCode. intros Hb%bool_decide_eq_true.
  assert (Hs : is_Some (vscode (run ops w))).
  { revert w Hb. induction ops as [|o ops IH]; intros w Hb; simpl; [done|].
    apply IH. by apply step_vscode_Some. }
  split; [by apply bool_decide_eq_true|].
  intros message. destruct Hs as [h Hh].
  unfold sendRequestToClient. rewrite Hh. simpl. split; [done|].
  apply lookup_insert_eq.
Qed.

(** ** Tree builders *)

Lemma appendContents_treeBuilder msg w :
  treeBuilder (appendContents msg w) = treeBuilder w ∧
  nextTreeBuilder (appendContents msg w) = nextTreeBuilder w.
Proof. unfold appendContents. repeat (case_match; simpl); done. Qed.

Lemma setContents_treeBuilder msg w :
  treeBuilder (setContents msg w) = Some (nextTreeBuilder w) ∧
  nextTreeBuilder (setContents msg w) = S (nextTreeBuilder w).
Proof. unfold setContents, saveTreeState. simpl. by destruct (isInVSCode _). Qed.

Lemma sendEventToClient_treeBuilder m w :
  treeBuilder (sendEventToClient m w) = treeBuilder w ∧
  nextTreeBuilder (sendEventToClient m w) = nextTreeBuilder w.
Proof. unfold sendEventToClient. by destruct (vscode w). Qed.

Lemma getState_treeBuilder w :
  treeBuilder (getState w).2 = treeBuilder w ∧
  nextTreeBuilder (getState w).2 = nextTreeBuilder w.
Proof.
  unfold getState. destruct (vscode w) as [h|]; [|done]. simpl.
  repeat (case_match; simpl); done.
Qed.

(** A step keeps the tree builder or installs the next one. *)
Lemma step_treeBuilder o w :
  (treeBuilder (step o w) = treeBuilder w ∧
   nextTreeBuilder (step o w) = nextTreeBuilder w) ∨
  (treeBuilder (step o w) = Some (nextTreeBuilder w) ∧
   nextTreeBuilder (step o w) = S (nextTreeBuilder w)).
Proof.
  destruct o; cbn [step];
    try (right; apply setContents_treeBuilder);
    try (left; first [ apply appendContents_treeBuilder | apply sendEventToClient_treeBuilder
                     | apply getState_treeBuilder | done ]).
  - left. unfold sendRequestToClient. by destruct (vscode w).
  - destruct data as [[m|m|req|ty]|]; cbn [on_message]; try (by left).
    + left. by destruct (msgIdToSeq w !! _).
    + left. by destruct (eventToHandler w !! _) as [[handler|]|].
    + destruct req; unfold unhandled_request, updateLabel; repeat case_match;
        try (by left);
        first [ right; apply setContents_treeBuilder
              | left; apply appendContents_treeBuilder ].
  - left. unfold setState. by destruct (vscode w).
  - left. unfold onClickReference. simpl.
    by destruct (sendEventToClient_treeBuilder
                   (IEventMessage.mk (_lastMessageId w + 1) "onClickReference" (Some message))
                   (with_lastMessageId (_lastMessageId w + 1) w)) as [-> ->].
  - left. unfold onChangedRun. simpl.
    by destruct (sendEventToClient_treeBuilder
                   (IEventMessage.mk (_lastMessageId w + 1) "onSetCurrentRunId"
                      (Some (any_with "runId" selectedRun any_empty)))
                   (with_lastMessageId (_lastMessageId w + 1) w)) as [-> ->].
Qed.

Lemma current_or_later_step o w tb :
  current_or_later (step o w) tb → current_or_later w tb.
Proof.
  unfold current_or_later.
  destruct (step_treeBuilder o w) as [[-> ->]|[-> ->]]; [done|].
  intros [[= <-]|Hle]; right; lia.
Qed.

Lemma treeBuilder_allocated w tb :
  reachable w → treeBuilder w = Some tb → tb < nextTreeBuilder w.
Proof.
  intros (o & ops & ->). revert tb.
  induction ops as [|op ops IH] using rev_ind; intros tb; [done|].
  unfold run in *. rewrite foldl_snoc.
  destruct (step_treeBuilder op (foldl (λ w o, step o w) (initial o) ops))
    as [[-> ->]|[-> ->]]; [apply IH|].
  intros [= <-]. lia.
Qed.

Lemma setContents_calls msg w :
  calls (setContents msg w) = calls w ++
    [SaveTreeState (opts w); NewTreeBuilder (nextTreeBuilder w);
     ClearAndInitializeTree (nextTreeBuilder w);
     AddInitialContents (nextTreeBuilder w) (opts (setContents msg w))].
Proof.
  unfold setContents, saveTreeState. simpl.
  destruct (isInVSCode _); simpl; rewrite <-!app_assoc; reflexivity.
Qed.

Lemma setContents_new_calls msg w :
  ∃ news, calls (setContents msg w) = calls w ++ news ∧
          Forall (goes_to_current_or_later w) news.
Proof.
  eexists. split; [apply setContents_calls|].
  repeat (apply Forall_cons_2;
          [intros tb Ht; simpl in Ht; try discriminate Ht; injection Ht as <-; right; lia|]).
  apply Forall_nil_2.
Qed.

Lemma appendContents_new_calls msg w :
  ∃ news, calls (appendContents msg w) = calls w ++ news ∧
          Forall (goes_to_current_or_later w) news.
Proof.
  unfold appendContents. case_decide; [|exists []; by rewrite app_nil_r].
  simpl. destruct (treeBuilder w) as [tb|] eqn:Htb; [|exists []; by rewrite app_nil_r].
  eexists. split; [reflexivity|].
  apply Forall_cons_2; [|apply Forall_nil_2]. intros tb' [= <-]. by left.
Qed.

Lemma quiet_new_calls w w' (c : Call) :
  calls w' = calls w ++ [c] → target c = None →
  ∃ news, calls w' = calls w ++ news ∧ Forall (goes_to_current_or_later w) news.
Proof.
  intros Hc Ht. exists [c]. split; [done|].
  apply Forall_cons_2; [|apply Forall_nil_2]. intros tb. by rewrite Ht.
Qed.

Lemma same_new_calls w w' :
  calls w' = calls w →
  ∃ news, calls w' = calls w ++ news ∧ Forall (goes_to_current_or_later w) news.
Proof. intros Hc. exists []. by rewrite app_nil_r. Qed.

Lemma sendEventToClient_calls m w : calls (sendEventToClient m w) = calls w.
Proof. unfold sendEventToClient. by destruct (vscode w). Qed.

Lemma getState_calls w : calls (getState w).2 = calls w.
Proof.
  unfold getState. destruct (vscode w) as [h|]; [|done]. simpl.
  repeat (case_match; simpl); done.
Qed.

Ltac one_quiet_call :=
  eexists; split;
  [simpl; reflexivity
  |apply Forall_cons_2; [intros ? Ht; discriminate Ht|apply Forall_nil_2]].

Lemma step_new_calls o w :
  ∃ news, calls (step o w) = calls w ++ news ∧
          Forall (goes_to_current_or_later w) news.
Proof.
  destruct o; cbn [step];
    try apply setContents_new_calls;
    try apply appendContents_new_calls;
    try (apply same_new_calls;
         first [ apply sendEventToClient_calls | apply getState_calls | done ]).
  - unfold sendRequestToClient. destruct (vscode w).
    + by apply same_new_calls.
    + one_quiet_call.
  - destruct data as [[m|m|req|ty]|]; cbn [on_message]; try (by apply same_new_calls).
    + destruct (msgIdToSeq w !! _); [one_quiet_call|by apply same_new_calls].
    + destruct (eventToHandler w !! _) as [[handler|]|]; one_quiet_call.
    + destruct req; unfold unhandled_request, updateLabel; repeat case_match;
        first [ apply setContents_new_calls | apply appendContents_new_calls
              | by apply same_new_calls | one_quiet_call ].
  - apply same_new_calls. unfold setState. by destruct (vscode w).
  - apply same_new_calls. unfold onClickReference. simpl.
    by rewrite sendEventToClient_calls.
  - apply same_new_calls. unfold onChangedRun. simpl.
    by rewrite sendEventToClient_calls.
Qed.

Lemma run_new_calls ops w :
  ∃ news, calls (run ops w) = calls w ++ news ∧
          Forall (goes_to_current_or_later w) news.
Proof.
  revert w. induction ops as [|o ops IH]; intros w; [by apply same_new_calls|].
  simpl. destruct (step_new_calls o w) as (news1 & Hc1 & Hf1).
  destruct (IH (step o w)) as (news2 & Hc2 & Hf2).
  exists (news1 ++ news2). split.
  - by rewrite Hc2, Hc1, app_assoc.
  - apply Forall_app. split; [done|].
    eapply Forall_impl; [exact Hf2|].
    intros c Hc tb Ht. eapply current_or_later_step, Hc, Ht.
Qed.

(** A tree builder that [setContents] has replaced is never called again:
    every later call to a tree builder, in any run, goes to the builder
    that the latest [setContents] constructed. *)
Theorem replaced_treeBuilder_unused w (old : TreeBuilder) (msg : ISetContentsRequest.t)
    (ops : list Op) (c : Call) :
  reachable w →
  treeBuilder w = Some old →
  c ∈ new_calls (setContents msg w) (run ops (setContents msg w)) →
  target c ≠ Some old.
Proof.
  intros Hreach Hold Hin Ht.
  pose proof (treeBuilder_allocated w old Hreach Hold) as Hlt.
  remember (setContents msg w) as w1 eqn:Hw1.
  destruct (run_new_calls ops w1) as (news & Hc & Hf).
  assert (Hnews : new_calls w1 (run ops w1) = news).
  { unfold new_calls. rewrite Hc. apply drop_app_length. }
  rewrite Hnews in Hin.
  rewrite Forall_forall in Hf. specialize (Hf c Hin old Ht). subst w1.
  destruct (setContents_treeBuilder msg w) as [Htb Hnext].
  destruct Hf as [Hcur|Hle].
  - rewrite Htb in Hcur. injection Hcur as Heq. lia.
  - rewrite Hnext in Hle. lia.
Qed.

(** ** Dispatch of requests *)








End Controller.

Section Dispatch.
Context {H : Type} `{!IVSCode.t H}.
Implicit Types (w : World H) (tb : TreeBuilder).




(** ** Notifications to the host *)

Lemma with_lastMessageId_same w : with_lastMessageId (_lastMessageId w) w = w.
Proof. by destruct w. Qed.

Lemma numbered_cons from n ns :
  numbered from (n :: ns) =
    IEventMessage.mk from n.1 (Some n.2) :: numbered (from + 1) ns.
Proof.
  unfold numbered. rewrite imap_cons. f_equal.
  - f_equal. lia.
  - apply imap_ext. intros i x _. simpl. f_equal. lia.
Qed.

Lemma notification_step o n w :
  notification o = Some n →
  step o w =
    sendEventToClient (IEventMessage.mk (_lastMessageId w + 1) n.1 (Some n.2))
      (with_lastMessageId (_lastMessageId w + 1) w).
Proof. destruct o; intros [= <-]; reflexivity. Qed.

(** [onClickReference] and [onChangedRun] take one sequence number each
    and post one event each.  A series of them posts its events in the
    order raised, numbered consecutively from the counter on; without a
    host nothing is posted and the numbers are used up all the same. *)
Theorem notifications_numbered_in_order w (ops : list Op) (ns : list (string * Any)) :
  notification <$> ops = Some <$> ns →
  let first := (_lastMessageId w + 1)%Z in
  let last := (_lastMessageId w + Z.of_nat (length ns))%Z in
  run ops w =
    with_vscode (post_all (numbered first ns) <$> vscode w) (with_lastMessageId last w).
Proof.
  revert w ops. induction ns as [|n ns IH]; intros w ops Hops.
  - apply fmap_nil_inv in Hops as ->. simpl.
    rewrite Z.add_0_r, with_lastMessageId_same.
    destruct w as [v ? ? ? ? ? ? ? ? ? ? ?]. by destruct v.
  - destruct ops as [|o ops]; [done|]. injection Hops as Ho Hops.
    cbn zeta. rewrite numbered_cons.
    change (run (o :: ops) w) with (run ops (step o w)).
    rewrite (IH _ _ Hops), (notification_step o n w Ho).
    unfold sendEventToClient. simpl.
    destruct (vscode w) as [h|] eqn:Hv;
      unfold with_vscode, with_lastMessageId; simpl; rewrite ?Hv; simpl; f_equal; lia.
Qed.

(** ** The toggles *)

(** [setShowTime] and [setShowExpand] write their own field of the
    options and nothing else: none of them calls the tree builder or any
    other collaborator, the run's fields stay, the later of two calls of
    one toggle wins, and the two toggles commute. *)
Theorem toggles_only_toggle w (a b : bool) :
  setShowTime a (setShowExpand b w) = setShowExpand b (setShowTime a w) ∧
  setShowTime a (setShowTime b w) = setShowTime a w ∧
  setShowExpand a (setShowExpand b w) = setShowExpand a w ∧
  opts (setShowTime a (setShowExpand b w)) =
    IOpts.mk (IOpts.runId (opts w)) (IOpts.initialContents (opts w))
      (IOpts.appendedContents (opts w)) (IOpts.allRunIdsToLabel (opts w))
      a b (IOpts.onClickReference (opts w)) ∧
  setShowTime a (setShowExpand b w) = with_opts (opts (setShowTime a (setShowExpand b w))) w.
Proof. split_and!; reflexivity. Qed.

(** ** Chunks *)

Lemma appendContents_frame msg w :
  IOpts.runId (opts (appendContents msg w)) = IOpts.runId (opts w) ∧
  treeBuilder (appendContents msg w) = treeBuilder w.
Proof. unfold appendContents. repeat (case_match; simpl); done. Qed.

Lemma chunks_for_cons runId msg msgs :
  chunks_for runId (msg :: msgs) =
    (if decide (runId = Some (IAppendContentsRequest.runId msg))
     then [IAppendContentsRequest.appendContents msg] else [])
      ++ chunks_for runId msgs.
Proof. unfold chunks_for. rewrite filter_cons. by case_decide. Qed.

Lemma appendContents_effect msg w :
  let chunk :=
    if decide (IOpts.runId (opts w) = Some (IAppendContentsRequest.runId msg))
    then [IAppendContentsRequest.appendContents msg] else [] in
  IOpts.appendedContents (opts (appendContents msg w)) =
    IOpts.appendedContents (opts w) ++ chunk ∧
  ∃ news, calls (appendContents msg w) = calls w ++ news ∧
          match treeBuilder w with
          | Some tb =>
              length news = length chunk ∧
              Forall (λ c, is_OnAppendedContents c = true ∧ target c = Some tb) news
          | None => news = []
          end.
Proof.
  unfold appendContents. case_decide; simpl.
  - destruct (treeBuilder w) as [tb|]; simpl; (split; [done|]).
    + eexists. split; [reflexivity|]. split; [done|].
      apply Forall_cons_2; [done|apply Forall_nil_2].
    + exists []. by rewrite app_nil_r.
  - split; [by rewrite app_nil_r|]. exists []. rewrite app_nil_r.
    split; [done|]. by destruct (treeBuilder w).
Qed.

(** Of a series of [appendContents] messages, the chunks of those that
    name the active run are appended to [appendedContents] in the order
    of arrival and the others are skipped; the active run stays the same;
    the current tree builder is notified once per appended chunk, and
    when there is none no call is made. *)
Theorem appendContents_in_order w (msgs : list IAppendContentsRequest.t) :
  let w' := appendAll msgs w in
  let chunks := chunks_for (IOpts.runId (opts w)) msgs in
  IOpts.appendedContents (opts w') = IOpts.appendedContents (opts w) ++ chunks ∧
  IOpts.runId (opts w') = IOpts.runId (opts w) ∧
  treeBuilder w' = treeBuilder w ∧
  ∃ news, calls w' = calls w ++ news ∧
          match treeBuilder w with
          | Some tb =>
              length news = length chunks ∧
              Forall (λ c, is_OnAppendedContents c = true ∧ target c = Some tb) news
          | None => news = []
          end.
Proof.
  revert w. induction msgs as [|msg msgs IH]; intros w.
  { cbn zeta. simpl. rewrite app_nil_r. split_and!; try done.
    exists []. rewrite app_nil_r. split; [done|]. by destruct (treeBuilder w). }
  cbn zeta. change (appendAll (msg :: msgs) w) with (appendAll msgs (appendContents msg w)).
  destruct (IH (appendContents msg w)) as (Happ & Hid & Htb & news & Hcalls & Hnews).
  destruct (appendContents_frame msg w) as [Hid1 Htb1].
  destruct (appendContents_effect msg w) as (Happ1 & news1 & Hcalls1 & Hnews1).
  cbn zeta in Happ1, Hnews1.
  rewrite Hid1 in Happ, Hid, Hnews. rewrite Htb1 in Htb, Hnews.
  rewrite chunks_for_cons.
  split_and!; try done.
  { by rewrite Happ, Happ1, <-app_assoc. }
  exists (news1 ++ news). split; [by rewrite Hcalls, Hcalls1, <-app_assoc|].
  destruct (treeBuilder w) as [tb|].
  - destruct Hnews as [Hlen Hall], Hnews1 as [Hlen1 Hall1].
    split; [by rewrite !length_app, Hlen, Hlen1|]. by apply Forall_app.
  - by rewrite Hnews, Hnews1.
Qed.

(** After [setContents] with an [undefined] run id no [appendContents]
    message names the active run: every chunk is skipped, until a
    [setContents] with a run id. *)
Theorem unnamed_run_takes_no_chunks w (msg : ISetContentsRequest.t)
    (msgs : list IAppendContentsRequest.t) :
  ISetContentsRequest.runId msg = None →
  appendAll msgs (setContents msg w) = setContents msg w.
Proof.
  intros Hnone.
  assert (Hid : IOpts.runId (opts (setContents msg w)) = None).
  { unfold setContents, saveTreeState. simpl. by destruct (isInVSCode _). }
  induction msgs as [|m msgs IH] using rev_ind; [done|].
  unfold appendAll in *. rewrite foldl_snoc, IH.
  unfold appendContents. rewrite Hid. by rewrite decide_False.
Qed.

End Dispatch.

(** * Further properties of the state store *)

Section Store.
Context {H : Type} `{!IVSCode.t H}.
Implicit Types (w : World H) (r : Ref).

Lemma getState_globalState w : _globalState (getState w).2 = _globalState w.
Proof.
  unfold getState. destruct (vscode w) as [h|]; [|done]. simpl.
  repeat (case_match; simpl); done.
Qed.

Lemma getState_only_heap w : (getState w).2 = with_heap (heap (getState w).2) w.
Proof.
  unfold getState. destruct (vscode w) as [h|]; simpl.
  - repeat (case_match; simpl); by destruct w.
  - by destruct w.
Qed.

Lemma getState_other_objects w h r :
  vscode w = Some h →
  r ≠ default (_globalState w) (IVSCode.getState h) →
  heap (getState w).2 !! r = heap w !! r.
Proof.
  intros Hh Hr. unfold getState. rewrite Hh.
  replace (match IVSCode.getState h with Some ret0 => ret0 | None => _globalState w end)
    with (default (_globalState w) (IVSCode.getState h))
    by (by destruct (IVSCode.getState h)).
  cbn zeta. rewrite !third_guard_false.
  repeat (case_match; simpl); rewrite ?lookup_insert_ne by done; done.
Qed.

(** With a host, [getState] returns the object that the host holds, or
    the [_globalState] object when the host holds none (a first run);
    the object then has a [filterLevel] and a [runIdToTreeState], those
    it had or the defaults, written into the object itself; no other
    object and nothing else of the modules' state is changed. *)
Theorem getState_hosted_writes_defaults_in_place w (h : H) :
  vscode w = Some h →
  let ret := default (_globalState w) (IVSCode.getState h) in
  let w' := (getState w).2 in
  (getState w).1 = ret ∧
  obj w' ret = backfilled (obj w ret) ∧
  (∀ r, r ≠ ret → heap w' !! r = heap w !! r) ∧
  w' = with_heap (heap w') w.
Proof.
  intros Hh ret w'. split_and!.
  - by destruct (getState_hosted w h Hh) as (Hret & _).
  - apply (getState_hosted_obj w h Hh).
  - intros r Hr. by apply (getState_other_objects w h).
  - apply getState_only_heap.
Qed.

(** A second [getState()] right after the first returns the same object
    and writes nothing: the defaults are filled in once. *)
Theorem getState_twice w :
  getState (getState w).2 = ((getState w).1, (getState w).2).
Proof.
  destruct (vscode w) as [h|] eqn:Hh.
  - set (w' := (getState w).2).
    assert (Hh' : vscode w' = Some h) by (subst w'; by rewrite getState_vscode).
    assert (Hg : _globalState w' = _globalState w) by apply getState_globalState.
    destruct (getState_hosted w h Hh) as (Hret & Hfl & Htr & _).
    destruct (getState_hosted w' h Hh') as (Hret' & _).
    rewrite Hg in Hret'.
    apply injective_projections; simpl.
    + exact (eq_trans Hret' (eq_sym Hret)).
    + apply (getState_complete w' h Hh'); rewrite Hg; subst w'.
      * rewrite Hfl. by eexists.
      * rewrite Htr. by eexists.
  - assert (Hw : getState w = (_globalState w, w)).
    { unfold getState. by rewrite Hh. }
    rewrite Hw. exact Hw.
Qed.

(** The state that was set before a host was bound is the state that a
    host without a state of its own starts from; a host that holds a
    state hides it. *)
Theorem standalone_state_is_first_hosted_state w (api : H) (state : Ref) :
  vscode w = None →
  (getState (setVSCodeAPI api (setState state w))).1 =
    default state (IVSCode.getState api).
Proof.
  intros Hnone.
  set (w1 := setVSCodeAPI api (setState state w)).
  assert (Hh : vscode w1 = Some api) by done.
  destruct (getState_hosted w1 api Hh) as (Hret & _). rewrite Hret.
  subst w1. unfold setState. by rewrite Hnone.
Qed.

End Store.

(** * The further properties on the scenarios *)

(** [request1] goes to the webview and [response1] comes back. *)
Lemma request_response_roundtrip_witness :
  vscode Scenario.hosted = Some Webview.fresh ∧
  let sent := sendRequestToClient Scenario.request1 Scenario.hosted in
  vscode sent.2 = Some (Webview.mk [post_request Scenario.request1] None) ∧
  resolutions sent.1 (on_message (Some (msg_response Scenario.response1)) sent.2)
    = [Scenario.response1].
Proof.
  pose proof (request_response_roundtrip Scenario.hosted Webview.fresh
                Scenario.request1 Scenario.response1
                (scenario_reachable [op_setVSCodeAPI Webview.fresh]) eq_refl eq_refl)
    as (Hpost & _ & _ & _ & _ & Hres & _).
  split; [reflexivity|]. intros sent. split; [exact Hpost | exact Hres].
Defined.

(** [request1] is sent, then another request under its number. *)
Lemma overwritten_request_never_resolved_witness :
  IRequestMessage.seq Scenario.request1_again = IRequestMessage.seq Scenario.request1 ∧
  resolutions 0%nat
    (run [op_message (Some (msg_response Scenario.response1))]
       (sendRequestToClient Scenario.request1_again
          (sendRequestToClient Scenario.request1 Scenario.hosted).2).2) = [].
Proof.
  pose proof (overwritten_request_never_resolved Scenario.hosted Webview.fresh
                Scenario.request1 Scenario.request1_again
                (scenario_reachable [op_setVSCodeAPI Webview.fresh]) eq_refl eq_refl)
    as (_ & _ & Hnever).
  split; [reflexivity|].
  exact (Hnever [op_message (Some (msg_response Scenario.response1))]).
Defined.

(** [request1] is pending while other things happen. *)
Lemma pending_until_answered_witness :
  msgIdToSeq Scenario.pending !! 1%Z = Some 0%nat ∧
  msgIdToSeq (run Scenario.unrelated Scenario.pending) !! 1%Z = Some 0%nat ∧
  resolutions 0%nat (run Scenario.unrelated Scenario.pending) = [].
Proof.
  assert (Hops : Forall (λ o, ¬ concerns 1%Z o) Scenario.unrelated).
  { repeat (apply Forall_cons_2; [simpl; intros Heq; first [discriminate Heq|exact Heq]|]).
    apply Forall_nil_2. }
  pose proof (pending_until_answered Scenario.pending 1%Z 0%nat Scenario.unrelated
                (scenario_reachable [op_setVSCodeAPI Webview.fresh; op_nextMessageSeq;
                                     op_sendRequestToClient Scenario.request1])
                eq_refl Hops) as [Hentry Hres].
  split_and!; [reflexivity | exact Hentry | exact Hres].
Defined.

(** The responses to [request1] and [request2] arrive in either order. *)
Lemma responses_in_any_order_witness :
  msgIdToSeq Scenario.two_pending !! 1%Z = Some 0%nat ∧
  msgIdToSeq Scenario.two_pending !! 2%Z = Some 1%nat ∧
  msgIdToSeq
    (on_message (Some (msg_response Scenario.response2))
       (on_message (Some (msg_response Scenario.response1)) Scenario.two_pending)) =
  msgIdToSeq
    (on_message (Some (msg_response Scenario.response1))
       (on_message (Some (msg_response Scenario.response2)) Scenario.two_pending)).
Proof.
  assert (Hne : IResponseMessage.request_seq Scenario.response1
                ≠ IResponseMessage.request_seq Scenario.response2) by (intros Heq; discriminate Heq).
  pose proof (responses_in_any_order Scenario.two_pending
                Scenario.response1 Scenario.response2 0%nat 1%nat
                (scenario_reachable [op_setVSCodeAPI Webview.fresh; op_nextMessageSeq;
                                     op_sendRequestToClient Scenario.request1;
                                     op_sendRequestToClient Scenario.request2])
                eq_refl eq_refl Hne) as (Hreg & _).
  split_and!; [reflexivity | reflexivity | exact Hreg].
Defined.

(** The webview stays bound through a run. *)
Lemma host_binding_stays_witness :
  isInVSCode Scenario.hosted = true ∧
  isInVSCode (run Scenario.unrelated Scenario.hosted) = true.
Proof.
  pose proof (host_binding_stays Scenario.hosted Scenario.unrelated eq_refl) as [Hb _].
  split; [reflexivity | exact Hb].
Defined.

(** Run ["B"] replaces run ["A"]; a chunk for ["B"] goes to builder 1. *)
Lemma replaced_treeBuilder_unused_witness :
  treeBuilder Scenario.active_A = Some 0%nat ∧
  let notified :=
    OnAppendedContents 1%nat
      (IOpts.mk (Some "B") "b" ["more"] None false false None) in
  notified ∈ new_calls (setContents Scenario.run_B Scenario.active_A)
               (run [op_appendContents Scenario.chunk_B]
                    (setContents Scenario.run_B Scenario.active_A)) ∧
  target notified ≠ Some 0%nat.
Proof.
  split; [reflexivity|]. intros notified.
  assert (Hin : notified ∈ new_calls (setContents Scenario.run_B Scenario.active_A)
                  (run [op_appendContents Scenario.chunk_B]
                       (setContents Scenario.run_B Scenario.active_A))).
  { vm_compute. constructor. }
  split; [exact Hin|].
  exact (replaced_treeBuilder_unused Scenario.active_A 0%nat Scenario.run_B
           [op_appendContents Scenario.chunk_B] notified
           (scenario_reachable [op_setContents Scenario.run_A]) eq_refl Hin).
Defined.


(** Two notifications reach the webview, numbered 1 and 2. *)
Lemma notifications_numbered_in_order_witness :
  notification <$> Scenario.two_notifications =
    Some <$> [("onClickReference", any_string "x");
              ("onSetCurrentRunId", any_with "runId" (any_string "A") any_empty)] ∧
  vscode (run Scenario.two_notifications Scenario.hosted) =
    Some (Webview.mk
            [post_event (IEventMessage.mk 1 "onClickReference" (Some (any_string "x")));
             post_event (IEventMessage.mk 2 "onSetCurrentRunId"
                           (Some (any_with "runId" (any_string "A") any_empty)))]
            None).
Proof.
  split; [reflexivity|].
  by rewrite (notifications_numbered_in_order Scenario.hosted Scenario.two_notifications
                [("onClickReference", any_string "x");
                 ("onSetCurrentRunId", any_with "runId" (any_string "A") any_empty)]
                eq_refl).
Defined.

(** Chunks arrive after a [setContents] without a run id. *)
Lemma unnamed_run_takes_no_chunks_witness :
  ISetContentsRequest.runId Scenario.run_unnamed = None ∧
  IOpts.appendedContents
    (opts (appendAll Scenario.chunks (setContents Scenario.run_unnamed Scenario.standalone)))
    = [].
Proof.
  split; [reflexivity|].
  by rewrite (unnamed_run_takes_no_chunks Scenario.standalone Scenario.run_unnamed
                Scenario.chunks eq_refl).
Defined.

(** [getState] on the state that the host stored without [runIdLRU]. *)
Lemma getState_hosted_writes_defaults_in_place_witness :
  vscode Scenario.legacy = Some (Webview.mk [] (Some 1%nat)) ∧
  (getState Scenario.legacy).1 = 1%nat ∧
  heap (getState Scenario.legacy).2 !! 0%nat = heap Scenario.legacy !! 0%nat.
Proof.
  pose proof (getState_hosted_writes_defaults_in_place Scenario.legacy
                (Webview.mk [] (Some 1%nat)) eq_refl) as (Hret & _ & Hframe & _).
  split_and!; [reflexivity | exact Hret |].
  apply Hframe. intros Heq. discriminate Heq.
Defined.

(** A state is set, then a webview without a state is bound. *)
Lemma standalone_state_is_first_hosted_state_witness :
  vscode (Scenario.with_some_state Scenario.standalone) = None ∧
  (getState (setVSCodeAPI Webview.fresh
               (setState 1%nat (Scenario.with_some_state Scenario.standalone)))).1 = 1%nat.
Proof.
  split; [reflexivity|].
  exact (standalone_state_is_first_hosted_state
           (Scenario.with_some_state Scenario.standalone) Webview.fresh 1%nat eq_refl).
Defined.
